(** * ready-set-go: the LRU cache of [cache/lru.go]

    A shallow embedding of [LRUCache] and of its operations, followed by the
    properties of the cache that the specification states.

    Modelling conventions.
    - [uint64] and [int] values are integers of [Z]; every conversion and
      every arithmetic operation of the source is written with its 64-bit
      wrap-around ([int] is taken at its 64-bit width).
    - [container/list] is a sequence of element pointers, front first; the
      [*entry] behind an element lives in a heap, so that the index
      ([table]) and the list share the entries exactly as the source does.
    - [time.Now()] is an input of the operation that reads the clock.
    - A value is a [Value] that is not nil (on a nil value [Size] panics
      before the cache is touched); [encoding/gob] and the printing of a
      [time.Time] belong to the standard library and are parameters.
    - A run-time panic of the source is the outcome [Panic]; the mutex is not
      modelled: an operation is one atomic step. *)

From stdpp Require Import gmap strings list fin_maps pretty sorting.
From Stdlib Require Import ZArith Lia Ascii.

Local Open Scope Z_scope.

(** ** Machine integers *)

Definition uint64_modulus : Z := 2 ^ 64.

(** The conversion [uint64(x)], also the result of any [uint64] operation. *)
Definition uint64 (z : Z) : Z := z mod uint64_modulus.

Definition int_min : Z := - 2 ^ 63.
Definition int_max : Z := 2 ^ 63 - 1.

(** The result of an [int] operation whose exact value is [z]. *)
Definition int (z : Z) : Z := (z + 2 ^ 63) mod uint64_modulus - 2 ^ 63.

Definition is_uint64 (z : Z) : Prop := 0 ≤ z < uint64_modulus.

(** [lru.size += uint64(d)] and [lru.size -= uint64(d)]. *)
Definition uint64_add (a b : Z) : Z := uint64 (a + b).
Definition uint64_sub (a b : Z) : Z := uint64 (a - b).

(** ** Outcomes *)

Inductive fault := NilDereference | InvalidPointer.

Inductive result (A : Type) : Type :=
  | Ok (a : A)
  | Panic (f : fault)
  | OutOfFuel.
Arguments Ok {A} a.
Arguments Panic {A} f.
Arguments OutOfFuel {A}.

Global Instance result_ret : MRet result := λ A a, Ok a.
Global Instance result_bind : MBind result := λ A B k m,
  match m with
  | Ok a => k a
  | Panic f => Panic f
  | OutOfFuel => OutOfFuel
  end.

Global Instance result_fmap : FMap result := λ A B g m,
  match m with
  | Ok a => Ok (g a)
  | Panic f => Panic f
  | OutOfFuel => OutOfFuel
  end.

Definition is_Ok {A} (r : result A) : Prop := ∃ a, r = Ok a.

(** ** Data model *)

(** [time.Time], as the distance to the zero time. *)
Definition Time : Type := Z.
Definition zeroTime : Time := 0.

(** The Go [error] value. *)
Inductive error := Error (msg : string).

(** [type Value interface { Size() int }] *)
Class Value (V : Type) := {
  Size : V → Z;
  Size_int : ∀ v, int_min ≤ Size v ≤ int_max
}.

Record Item (V : Type) := mkItem { item_Key : string; item_Value : V }.
Arguments mkItem {V} _ _.
Arguments item_Key {V} _.
Arguments item_Value {V} _.

Record entry (V : Type) := mkEntry {
  entry_key : string;
  entry_value : V;
  entry_size : Z;
  entry_timeAccessed : Time
}.
Arguments mkEntry {V} _ _ _ _.
Arguments entry_key {V} _.
Arguments entry_value {V} _.
Arguments entry_size {V} _.
Arguments entry_timeAccessed {V} _.

(** A [*list.Element]: the address of an element of the list. *)
Abbreviation elem := nat (only parsing).

Record LRUCache (V : Type) := mkLRU {
  lru_list : list elem;              (* list: the elements, front first *)
  lru_table : gmap string elem;      (* table: key -> element *)
  lru_size : Z;                      (* size uint64 *)
  lru_capacity : Z;                  (* capacity uint64 *)
  lru_heap : gmap elem (entry V);    (* element.Value.( *entry ) *)
  lru_next : elem                    (* the next address handed out *)
}.
Arguments mkLRU {V} _ _ _ _ _ _.
Arguments lru_list {V} _.
Arguments lru_table {V} _.
Arguments lru_size {V} _.
Arguments lru_capacity {V} _.
Arguments lru_heap {V} _.
Arguments lru_next {V} _.

(** ** [container/list] on the sequence of elements *)

Definition list_Back (l : list elem) : option elem := last l.

Definition list_Remove (p : elem) (l : list elem) : list elem :=
  filter (λ q, q ≠ p) l.

Definition list_PushFront (p : elem) (l : list elem) : list elem := p :: l.

(** [MoveToFront] does nothing on an element that is not in the list. *)
Definition list_MoveToFront (p : elem) (l : list elem) : list elem :=
  if decide (p ∈ l) then p :: list_Remove p l else l.

Section Cache.
Context {V : Type} `{!Value V}.

Definition NewLRUCache (capacity : Z) : LRUCache V :=
  mkLRU [] ∅ 0 capacity ∅ 0%nat.

(** [element.Value.( *entry )] *)
Definition deref (c : LRUCache V) (p : elem) : result (entry V) :=
  match lru_heap c !! p with
  | Some e => Ok e
  | None => Panic InvalidPointer
  end.

Definition moveToFront (p : elem) (now : Time) (c : LRUCache V)
  : result (LRUCache V) :=
  e ← deref c p;
  Ok (mkLRU (list_MoveToFront p (lru_list c)) (lru_table c) (lru_size c)
        (lru_capacity c)
        (<[p := mkEntry (entry_key e) (entry_value e) (entry_size e) now]>
           (lru_heap c))
        (lru_next c)).

(** One turn of the loop of [checkCapacity]. *)
Definition evict (c : LRUCache V) : result (LRUCache V) :=
  match list_Back (lru_list c) with
  | None => Panic NilDereference
  | Some delElem =>
      delValue ← deref c delElem;
      Ok (mkLRU (list_Remove delElem (lru_list c))
            (delete (entry_key delValue) (lru_table c))
            (uint64_sub (lru_size c) (uint64 (entry_size delValue)))
            (lru_capacity c) (lru_heap c) (lru_next c))
  end.

Fixpoint checkCapacity_loop (fuel : nat) (c : LRUCache V)
  : result (LRUCache V) :=
  if bool_decide (lru_capacity c < lru_size c) then
    match fuel with
    | O => OutOfFuel
    | S fuel' => c' ← evict c; checkCapacity_loop fuel' c'
    end
  else Ok c.

(** Every turn removes an element or panics, so that one more turn than
    the list has elements is always enough (see [checkCapacity_loop_fuel]). *)
Definition checkCapacity (c : LRUCache V) : result (LRUCache V) :=
  checkCapacity_loop (S (length (lru_list c))) c.

Definition addNew (key : string) (value : V) (now : Time) (c : LRUCache V)
  : result (LRUCache V) :=
  let newEntry := mkEntry key value (Size value) now in
  let element := lru_next c in
  checkCapacity
    (mkLRU (list_PushFront element (lru_list c))
       (<[key := element]> (lru_table c))
       (uint64_add (lru_size c) (uint64 (entry_size newEntry)))
       (lru_capacity c)
       (<[element := newEntry]> (lru_heap c))
       (S (lru_next c))).

Definition updateInplace (element : elem) (value : V) (now : Time)
    (c : LRUCache V) : result (LRUCache V) :=
  e ← deref c element;
  let valueSize := Size value in
  let sizeDiff := int (valueSize - entry_size e) in
  let c1 :=
    mkLRU (lru_list c) (lru_table c)
      (uint64_add (lru_size c) (uint64 sizeDiff))
      (lru_capacity c)
      (<[element := mkEntry (entry_key e) value valueSize
                      (entry_timeAccessed e)]> (lru_heap c))
      (lru_next c) in
  c2 ← moveToFront element now c1;
  checkCapacity c2.

Definition Get (key : string) (now : Time) (c : LRUCache V)
  : result (option V * LRUCache V) :=
  match lru_table c !! key with
  | None => Ok (None, c)
  | Some element =>
      c' ← moveToFront element now c;
      e ← deref c' element;
      Ok (Some (entry_value e), c')
  end.

Definition Set_ (key : string) (value : V) (now : Time) (c : LRUCache V)
  : result (LRUCache V) :=
  match lru_table c !! key with
  | Some element => moveToFront element now c
  | None => addNew key value now c
  end.

Definition SetIfAbsent (key : string) (value : V) (now : Time)
    (c : LRUCache V) : result (LRUCache V) :=
  match lru_table c !! key with
  | None => addNew key value now c
  | Some _ => Ok c
  end.

Definition Delete (key : string) (c : LRUCache V)
  : result (bool * LRUCache V) :=
  match lru_table c !! key with
  | None => Ok (false, c)
  | Some element =>
      e ← deref c element;
      Ok (true,
          mkLRU (list_Remove element (lru_list c))
            (delete key (lru_table c))
            (uint64_sub (lru_size c) (uint64 (entry_size e)))
            (lru_capacity c) (lru_heap c) (lru_next c))
  end.

Definition Clear (c : LRUCache V) : LRUCache V :=
  mkLRU [] ∅ 0 (lru_capacity c) (lru_heap c) (lru_next c).

Definition SetCapacity (capacity : Z) (c : LRUCache V)
  : result (LRUCache V) :=
  checkCapacity
    (mkLRU (lru_list c) (lru_table c) (lru_size c) capacity (lru_heap c)
       (lru_next c)).

Definition Stats (c : LRUCache V) : result (Z * Z * Z * Time) :=
  oldest ← match list_Back (lru_list c) with
           | Some lastElem =>
               e ← deref c lastElem; Ok (entry_timeAccessed e)
           | None => Ok zeroTime
           end;
  Ok (uint64 (Z.of_nat (length (lru_list c))), lru_size c, lru_capacity c,
      oldest).

(** The walk from [Front()] along [Next()]. *)
Fixpoint walk (c : LRUCache V) (l : list elem) : result (list (entry V)) :=
  match l with
  | [] => Ok []
  | p :: l' => e ← deref c p; es ← walk c l'; Ok (e :: es)
  end.

Definition Keys (c : LRUCache V) : result (list string) :=
  es ← walk c (lru_list c); Ok (entry_key <$> (es : list (entry V))).

(** [Item{Key: v.key, Value: v.value}] *)
Definition entry_item (v : entry V) : Item V :=
  mkItem (entry_key v) (entry_value v).

Definition Items (c : LRUCache V) : result (list (Item V)) :=
  es ← walk c (lru_list c);
  Ok (entry_item <$> (es : list (entry V))).

(** *** What a state holds *)

(** The cached size of the entry behind an element. *)
Definition size_at (h : gmap elem (entry V)) (p : elem) : Z :=
  from_option entry_size 0 (h !! p).

(** The sum of the cached sizes of the entries of the list, as an exact
    integer. *)
Definition total_of (h : gmap elem (entry V)) (l : list elem) : Z :=
  foldr (λ p acc, size_at h p + acc) 0 l.

Definition total (c : LRUCache V) : Z :=
  total_of (lru_heap c) (lru_list c).

(** The entries of the list, front first. *)
Definition entries (c : LRUCache V) : list (entry V) :=
  omap (λ p, lru_heap c !! p) (lru_list c).

(** An entry of the cache: behind an element of the list. *)
Definition present (c : LRUCache V) (p : elem) (e : entry V) : Prop :=
  p ∈ lru_list c ∧ lru_heap c !! p = Some e.

(** The representation invariant: the list has no element twice, the
    index holds exactly the keys of the entries of the list and sends each
    to its element, an entry caches the size of its value, and the
    accounted size is the 64-bit sum of the cached sizes. *)
Record consistent (c : LRUCache V) : Prop := {
  cons_nodup : NoDup (lru_list c);
  cons_next : ∀ p, p ∈ lru_list c → (p < lru_next c)%nat;
  cons_heap : ∀ p, p ∈ lru_list c →
    ∃ e, lru_heap c !! p = Some e ∧ entry_size e = Size (entry_value e);
  cons_table : ∀ k p, lru_table c !! k = Some p ↔
    p ∈ lru_list c ∧ ∃ e, lru_heap c !! p = Some e ∧ entry_key e = k;
  cons_size : lru_size c = uint64 (total c);
  cons_capacity : is_uint64 (lru_capacity c)
}.

(** No wrap-around has been lost: the sizes are non-negative and the
    accounted size is their exact sum. *)
Definition exact (c : LRUCache V) : Prop :=
  (∀ p e, present c p e → 0 ≤ entry_size e) ∧ lru_size c = total c.

(** An exact state within a capacity of at most [2^63]. *)
Definition modest (c : LRUCache V) : Prop :=
  exact c ∧ lru_size c ≤ lru_capacity c ∧ lru_capacity c ≤ 2 ^ 63.

(** [exact], as a test. *)
Definition exactb (c : LRUCache V) : bool :=
  forallb (λ p, bool_decide (0 ≤ size_at (lru_heap c) p)) (lru_list c)
  && bool_decide (lru_size c = total c).

(** The sum of the sizes that the values of a slice of items report. *)
Definition sum_sizes (items : list (Item V)) : Z :=
  foldr (λ item acc, Size (item_Value item) + acc) 0 items.

(** *** Introspection as JSON *)

Section Json.
(** [fmt]'s rendering of a [time.Time] under [%v] (the standard library's
    [Time.String]). *)
Variable formatTime : Time → string.

Definition dquote : string := String "034"%char EmptyString.

(** [fmt.Sprintf] of the format of [StatsJSON]; [%v] prints an unsigned
    integer in decimal. *)
Definition sprintfStats (length size capacity : Z) (oldest : Time)
  : string :=
  "{" +:+ dquote +:+ "Length" +:+ dquote +:+ ": " +:+ pretty length
  +:+ ", " +:+ dquote +:+ "Size" +:+ dquote +:+ ": " +:+ pretty size
  +:+ ", " +:+ dquote +:+ "Capacity" +:+ dquote +:+ ": "
  +:+ pretty capacity
  +:+ ", " +:+ dquote +:+ "OldestAccess" +:+ dquote +:+ ": " +:+ dquote
  +:+ formatTime oldest +:+ dquote +:+ "}".

(** The receiver is a pointer: [None] is the nil cache. *)
Definition StatsJSON (lru : option (LRUCache V)) : result string :=
  match lru with
  | None => Ok "{}"%string
  | Some c =>
      '(length, size, capacity, oldest) ← Stats c;
      Ok (sprintfStats length size capacity oldest)
  end.
End Json.

(** *** Persistence *)

(** [encoding/gob] on a slice of items: what the encoder writes to the
    [io.Writer], and what the decoder makes of the bytes of an [io.Reader];
    either may fail. *)
Class Gob (Stream : Type) := {
  gob_Encode : list (Item V) → Stream + error;
  gob_Decode : Stream → list (Item V) + error
}.

Section Persistence.
Context {Stream : Type} `{!Gob Stream}.

Definition SaveItems (c : LRUCache V) : result (Stream + error) :=
  items ← Items c;
  Ok (gob_Encode items).

(** The body of the [range] loop of [LoadItems]. *)
Definition loadItem (item : Item V) (now : Time) (c : LRUCache V)
  : result (LRUCache V) :=
  match lru_table c !! item_Key item with
  | Some element => updateInplace element (item_Value item) now c
  | None => addNew (item_Key item) (item_Value item) now c
  end.

(** [clock i] is the time read while the [i]-th item is applied. *)
Fixpoint loadLoop (items : list (Item V)) (clock : nat → Time)
    (c : LRUCache V) : result (LRUCache V) :=
  match items with
  | [] => Ok c
  | item :: items' =>
      c' ← loadItem item (clock O) c;
      loadLoop items' (λ i, clock (S i)) c'
  end.

(** The returned [error] is [None] for [nil]. *)
Definition LoadItems (r : Stream) (clock : nat → Time) (c : LRUCache V)
  : result (option error * LRUCache V) :=
  match gob_Decode r with
  | inr err => Ok (Some err, c)
  | inl items => c' ← loadLoop items clock c; Ok (None, c')
  end.

(** *** Sequences of public operations *)

Inductive op :=
  | OpGet (key : string) (now : Time)
  | OpSet (key : string) (value : V) (now : Time)
  | OpSetIfAbsent (key : string) (value : V) (now : Time)
  | OpDelete (key : string)
  | OpClear
  | OpSetCapacity (capacity : Z)
  | OpLoad (r : Stream) (clock : nat → Time).

(** The arguments have their Go types. *)
Definition op_typed (o : op) : Prop :=
  match o with
  | OpSetCapacity capacity => is_uint64 capacity
  | _ => True
  end.

Definition run_op (o : op) (c : LRUCache V) : result (LRUCache V) :=
  match o with
  | OpGet key now => snd <$> Get key now c
  | OpSet key value now => Set_ key value now c
  | OpSetIfAbsent key value now => SetIfAbsent key value now c
  | OpDelete key => snd <$> Delete key c
  | OpClear => Ok (Clear c)
  | OpSetCapacity capacity => SetCapacity capacity c
  | OpLoad r clock => snd <$> LoadItems r clock c
  end.

Fixpoint run_ops (ops : list op) (c : LRUCache V) : result (LRUCache V) :=
  match ops with
  | [] => Ok c
  | o :: ops' => c' ← run_op o c; run_ops ops' c'
  end.

(** An operation that cannot make the accounted size wrap around: the
    sizes it brings are not negative and its capacity is at most [2^63]. *)
Definition op_modest (o : op) : Prop :=
  match o with
  | OpSet _ value _ | OpSetIfAbsent _ value _ => 0 ≤ Size value
  | OpSetCapacity capacity => capacity ≤ 2 ^ 63
  | OpLoad r _ =>
      ∀ items, gob_Decode r = inl items →
               ∀ item, item ∈ items → 0 ≤ Size (item_Value item)
  | _ => True
  end.

(** The states of a cache: what the public operations make of a fresh
    cache. *)
Definition reachable (c : LRUCache V) : Prop :=
  ∃ capacity ops,
    is_uint64 capacity ∧ Forall op_typed ops ∧
    run_ops ops (NewLRUCache capacity) = Ok c.
End Persistence.

End Cache.

Arguments op : clear implicits.
Arguments Gob : clear implicits.

(** ** Sample payloads and a sample stream format *)

(** A payload that reports the weight it carries. *)
Record Blob := mkBlob { blob_data : string; blob_weight : Z }.

#[global] Instance Blob_Value : Value Blob.
Proof.
  refine {| Size b := int (blob_weight b) |}.
  intros b. unfold int, int_min, int_max, uint64_modulus.
  pose proof (Z.mod_pos_bound (blob_weight b + 2 ^ 63) (2 ^ 64)). lia.
Defined.

(** A stream of frames; a frame is an item or is damaged. The decoder reads
    the whole stream and fails at the first damaged frame. *)
Fixpoint sampleDecode {V} (r : list (option (Item V)))
  : list (Item V) + error :=
  match r with
  | [] => inl []
  | None :: _ => inr (Error "unexpected EOF")
  | Some item :: r' =>
      match sampleDecode r' with
      | inl items => inl (item :: items)
      | inr err => inr err
      end
  end.

#[global] Instance sample_Gob {V} : Gob V (list (option (Item V))) := {|
  gob_Encode items := inl (Some <$> items);
  gob_Decode := sampleDecode
|}.

Abbreviation SampleStream := (list (option (Item Blob))) (only parsing).

(** The state an operation sequence ends in ([d] if it does not). *)
Definition final_state {A} (r : result A) (d : A) : A :=
  match r with Ok a => a | _ => d end.

(** Three insertions whose sizes add up to [2 ^ 64]. *)
Definition overflow_capacity : Z := 2 ^ 63 + 1.
Definition overflow_ops : list (op Blob SampleStream) :=
  [ OpSet "a" (mkBlob "a" 2) 1;
    OpSet "b" (mkBlob "b" (2 ^ 63 - 1)) 2;
    OpSet "c" (mkBlob "c" (2 ^ 63 - 1)) 3 ].
Definition overflow_state : LRUCache Blob :=
  final_state (run_ops overflow_ops (NewLRUCache overflow_capacity))
    (NewLRUCache 0).

(** Two unit entries at capacity 2, a read of the older one, a third entry. *)
Definition sample_ops : list (op Blob SampleStream) :=
  [ OpSet "A" (mkBlob "a" 1) 1;
    OpSet "B" (mkBlob "b" 1) 2;
    OpGet "A" 3;
    OpSet "C" (mkBlob "c" 1) 4 ].
Definition sample_state : LRUCache Blob :=
  final_state (run_ops sample_ops (NewLRUCache 2)) (NewLRUCache 0).



(** A stream that brings a new value for "A". *)
Definition update_stream : SampleStream :=
  [Some (mkItem "A" (mkBlob "a2" 1))].

(** A stream with one good frame and one damaged frame. *)
Definition damaged_stream : SampleStream :=
  [Some (mkItem "a" (mkBlob "a" 1)); None].

(** The clock of the samples: the [i]-th reading is [i]. *)
Definition sample_clock : nat → Time := Z.of_nat.

(** [time.Time] printed as its distance to the zero time. *)
Definition sample_formatTime : Time → string := pretty.

(** What [SetCapacity 1] hands to the eviction loop from [sample_state]. *)
Definition shrunk_state : LRUCache Blob :=
  mkLRU (lru_list sample_state) (lru_table sample_state)
    (lru_size sample_state) 1 (lru_heap sample_state) (lru_next sample_state).

(** What [Set "A"] of a payload of size 10 hands to the eviction loop from
    a fresh cache of capacity 5. *)
Definition oversized_entry : entry Blob := mkEntry "A" (mkBlob "A" 10) 10 1.
Definition oversized_state : LRUCache Blob :=
  mkLRU [0%nat] (<["A" := 0%nat]> ∅) 10 5 (<[0%nat := oversized_entry]> ∅)
    1%nat.

(** ** The cache as the sequence of its entries *)

(** What the public operations let one observe of a state: the entries from
    the front of the list to its back, the accounted size and the capacity;
    not the addresses of the elements. The operations of the source are
    written once more on this view ([v_...]), to state that they act on it
    alone (see [run_op_view]). *)
Record view (V : Type) := mkView {
  v_entries : list (entry V);
  v_size : Z;
  v_capacity : Z
}.
Arguments mkView {V} _ _ _.
Arguments v_entries {V} _.
Arguments v_size {V} _.
Arguments v_capacity {V} _.

Section View.
Context {V : Type} `{!Value V}.

Definition view_of (c : LRUCache V) : view V :=
  mkView (entries c) (lru_size c) (lru_capacity c).

(** The first entry of a key. *)
Fixpoint lookup_key (key : string) (es : list (entry V)) : option (entry V) :=
  match es with
  | [] => None
  | e :: es' => if decide (entry_key e = key) then Some e else lookup_key key es'
  end.

Definition without_key (key : string) (es : list (entry V)) : list (entry V) :=
  filter (λ e, entry_key e ≠ key) es.

Definition stamp (e : entry V) (now : Time) : entry V :=
  mkEntry (entry_key e) (entry_value e) (entry_size e) now.

Definition v_moveToFront (key : string) (now : Time) (v : view V) : view V :=
  match lookup_key key (v_entries v) with
  | Some e =>
      mkView (stamp e now :: without_key key (v_entries v)) (v_size v)
        (v_capacity v)
  | None => v
  end.

Fixpoint v_checkCapacity_loop (fuel : nat) (v : view V) : result (view V) :=
  if bool_decide (v_capacity v < v_size v) then
    match fuel with
    | O => OutOfFuel
    | S fuel' =>
        match last (v_entries v) with
        | None => Panic NilDereference
        | Some delValue =>
            v_checkCapacity_loop fuel'
              (mkView (removelast (v_entries v))
                 (uint64_sub (v_size v) (uint64 (entry_size delValue)))
                 (v_capacity v))
        end
    end
  else Ok v.

Definition v_checkCapacity (v : view V) : result (view V) :=
  v_checkCapacity_loop (S (length (v_entries v))) v.

Definition v_addNew (key : string) (value : V) (now : Time) (v : view V)
  : result (view V) :=
  v_checkCapacity
    (mkView (mkEntry key value (Size value) now :: v_entries v)
       (uint64_add (v_size v) (uint64 (Size value))) (v_capacity v)).

Definition v_updateInplace (e : entry V) (value : V) (now : Time) (v : view V)
  : result (view V) :=
  v_checkCapacity
    (mkView (mkEntry (entry_key e) value (Size value) now
               :: without_key (entry_key e) (v_entries v))
       (uint64_add (v_size v) (uint64 (int (Size value - entry_size e))))
       (v_capacity v)).

Definition v_Get (key : string) (now : Time) (v : view V)
  : option V * view V :=
  (entry_value <$> lookup_key key (v_entries v), v_moveToFront key now v).

Definition v_Set (key : string) (value : V) (now : Time) (v : view V)
  : result (view V) :=
  match lookup_key key (v_entries v) with
  | Some _ => Ok (v_moveToFront key now v)
  | None => v_addNew key value now v
  end.

Definition v_SetIfAbsent (key : string) (value : V) (now : Time) (v : view V)
  : result (view V) :=
  match lookup_key key (v_entries v) with
  | Some _ => Ok v
  | None => v_addNew key value now v
  end.

Definition v_Delete (key : string) (v : view V) : bool * view V :=
  match lookup_key key (v_entries v) with
  | Some e =>
      (true,
       mkView (without_key key (v_entries v))
         (uint64_sub (v_size v) (uint64 (entry_size e))) (v_capacity v))
  | None => (false, v)
  end.

Definition v_Clear (v : view V) : view V := mkView [] 0 (v_capacity v).

Definition v_SetCapacity (capacity : Z) (v : view V) : result (view V) :=
  v_checkCapacity (mkView (v_entries v) (v_size v) capacity).

Definition v_loadItem (item : Item V) (now : Time) (v : view V)
  : result (view V) :=
  match lookup_key (item_Key item) (v_entries v) with
  | Some e => v_updateInplace e (item_Value item) now v
  | None => v_addNew (item_Key item) (item_Value item) now v
  end.

Fixpoint v_loadLoop (items : list (Item V)) (clock : nat → Time) (v : view V)
  : result (view V) :=
  match items with
  | [] => Ok v
  | item :: items' =>
      v' ← v_loadItem item (clock O) v;
      v_loadLoop items' (λ i, clock (S i)) v'
  end.

(** The entries are in the order of their access times, the latest first,
    and none was accessed after [t]. *)
Definition recent_first (t : Time) (es : list (entry V)) : Prop :=
  StronglySorted (λ e1 e2, entry_timeAccessed e2 ≤ entry_timeAccessed e1) es ∧
  Forall (λ e, entry_timeAccessed e ≤ t) es.

Section ViewPersistence.
Context {Stream : Type} `{!Gob V Stream}.

(** The clock does not go back along a sequence of operations: every
    reading is at least the one before it, [t] being the last reading
    before the sequence. *)
Fixpoint clocked (t : Time) (ops : list (op V Stream)) : Prop :=
  match ops with
  | [] => True
  | o :: ops' =>
      match o with
      | OpGet _ now | OpSet _ _ now | OpSetIfAbsent _ _ now =>
          t ≤ now ∧ clocked now ops'
      | OpLoad _ clock =>
          t ≤ clock O ∧ (∀ i, clock i ≤ clock (S i)) ∧
          ∃ t', (∀ i, clock i ≤ t') ∧ clocked t' ops'
      | _ => clocked t ops'
      end
  end.

Definition v_run_op (o : op V Stream) (v : view V) : result (view V) :=
  match o with
  | OpGet key now => Ok (snd (v_Get key now v))
  | OpSet key value now => v_Set key value now v
  | OpSetIfAbsent key value now => v_SetIfAbsent key value now v
  | OpDelete key => Ok (snd (v_Delete key v))
  | OpClear => Ok (v_Clear v)
  | OpSetCapacity capacity => v_SetCapacity capacity v
  | OpLoad r clock =>
      match gob_Decode r with
      | inl items => v_loadLoop items clock v
      | inr _ => Ok v
      end
  end.

Fixpoint v_run_ops (ops : list (op V Stream)) (v : view V) : result (view V) :=
  match ops with
  | [] => Ok v
  | o :: ops' => v' ← v_run_op o v; v_run_ops ops' v'
  end.
End ViewPersistence.

End View.

(** * Properties *)

(** ** 64-bit arithmetic *)

Lemma uint64_range z : is_uint64 (uint64 z).
Proof. apply Z.mod_pos_bound. reflexivity. Qed.

Lemma uint64_small z : is_uint64 z → uint64 z = z.
Proof. intros Hz. apply Z.mod_small. exact Hz. Qed.

Lemma uint64_int z : uint64 (int z) = uint64 z.
Proof.
  unfold uint64, int.
  rewrite Zminus_mod_idemp_l. f_equal. lia.
Qed.

Lemma uint64_add_mod a b : uint64_add (uint64 a) (uint64 b) = uint64 (a + b).
Proof. unfold uint64_add, uint64. symmetry. apply Z.add_mod. discriminate. Qed.

Lemma uint64_sub_mod a b : uint64_sub (uint64 a) (uint64 b) = uint64 (a - b).
Proof. unfold uint64_sub, uint64. symmetry. apply Zminus_mod. Qed.

Lemma uint64_add_int a d : uint64_add a (uint64 (int d)) = uint64 (a + d).
Proof.
  unfold uint64_add. rewrite uint64_int. unfold uint64.
  apply Zplus_mod_idemp_r.
Qed.

Lemma int_small z : int_min ≤ z ≤ int_max → int z = z.
Proof.
  unfold int, int_min, int_max, uint64_modulus. intros Hz.
  rewrite Z.mod_small; lia.
Qed.

(** ** The list of elements *)

Lemma elem_of_list_Remove p q l : q ∈ list_Remove p l ↔ q ∈ l ∧ q ≠ p.
Proof. unfold list_Remove. rewrite list_elem_of_filter. tauto. Qed.

Lemma NoDup_list_Remove p l : NoDup l → NoDup (list_Remove p l).
Proof. apply NoDup_filter. Qed.

Lemma list_Remove_notin p l : p ∉ l → list_Remove p l = l.
Proof.
  induction l as [|q l IH]; intros Hp; [done|].
  apply not_elem_of_cons in Hp as [Hne Hp].
  unfold list_Remove. rewrite filter_cons_True by congruence.
  f_equal. by apply IH.
Qed.

Lemma list_Remove_head p l : p ∉ l → list_Remove p (p :: l) = l.
Proof.
  intros Hp. unfold list_Remove. rewrite filter_cons_False by tauto.
  by apply list_Remove_notin.
Qed.

Lemma list_Remove_back p l : p ∉ l → list_Remove p (l ++ [p]) = l.
Proof.
  intros Hp. unfold list_Remove. rewrite filter_app.
  rewrite filter_cons_False by tauto. rewrite filter_nil, app_nil_r.
  by apply list_Remove_notin.
Qed.

Lemma list_Back_Some l p : list_Back l = Some p → ∃ l', l = l' ++ [p].
Proof. unfold list_Back. intros Hl. apply last_Some in Hl. exact Hl. Qed.

Lemma list_Back_None l : list_Back l = None → l = [].
Proof. unfold list_Back. apply last_None. Qed.

Lemma list_Remove_length p l :
  p ∈ l → (length (list_Remove p l) < length l)%nat.
Proof.
  induction l as [|q l IH]; intros Hp; [by apply elem_of_nil in Hp|].
  unfold list_Remove. destruct (decide (q = p)) as [->|Hne].
  - rewrite filter_cons_False by tauto. simpl.
    pose proof (length_filter (λ q, q ≠ p) l). lia.
  - rewrite filter_cons_True by done. simpl.
    apply elem_of_cons in Hp as [->|Hp]; [done|].
    specialize (IH Hp). unfold list_Remove in IH. lia.
Qed.

Section Theory.
Context {V : Type} `{!Value V}.
Implicit Types (c : LRUCache V) (h : gmap nat (entry V)) (l : list nat).
Implicit Types (e : entry V) (p q : nat).

(** ** The sum of the cached sizes *)

Lemma total_of_app h l1 l2 :
  total_of h (l1 ++ l2) = total_of h l1 + total_of h l2.
Proof.
  induction l1 as [|p l1 IH]; simpl; [done|]. rewrite IH. lia.
Qed.

Lemma total_of_Permutation h l1 l2 :
  l1 ≡ₚ l2 → total_of h l1 = total_of h l2.
Proof.
  induction 1 as [|p l1 l2 _ IH|p q l|l1 l2 l3 _ IH1 _ IH2]; simpl;
    [done|by rewrite IH|lia|congruence].
Qed.

Lemma total_of_insert_notin h l p e :
  p ∉ l → total_of (<[p:=e]> h) l = total_of h l.
Proof.
  induction l as [|q l IH]; intros Hp; simpl; [done|].
  apply not_elem_of_cons in Hp as [Hne Hp].
  rewrite IH by done. unfold size_at. by rewrite lookup_insert_ne.
Qed.

Lemma total_of_Remove h l p :
  NoDup l → p ∈ l → total_of h l = size_at h p + total_of h (list_Remove p l).
Proof.
  induction 1 as [|q l Hq Hl IH]; intros Hp; [by apply elem_of_nil in Hp|].
  destruct (decide (q = p)) as [->|Hne].
  - by rewrite list_Remove_head.
  - apply elem_of_cons in Hp as [->|Hp]; [done|].
    unfold list_Remove in *. rewrite filter_cons_True by done.
    simpl. rewrite IH by done. lia.
Qed.

Lemma list_MoveToFront_Permutation p l :
  NoDup l → list_MoveToFront p l ≡ₚ l.
Proof.
  intros Hl. unfold list_MoveToFront. case_decide as Hp; [|done].
  induction Hl as [|q l Hq Hl IH]; [by apply elem_of_nil in Hp|].
  destruct (decide (q = p)) as [->|Hne].
  - by rewrite list_Remove_head.
  - apply elem_of_cons in Hp as [->|Hp]; [done|].
    unfold list_Remove in *. rewrite filter_cons_True by done.
    rewrite <- (IH Hp) at 2. apply Permutation_swap.
Qed.

Lemma total_of_insert_in h l p e :
  NoDup l → p ∈ l →
  total_of (<[p:=e]> h) l = total_of h l - size_at h p + entry_size e.
Proof.
  intros Hl Hp.
  rewrite (total_of_Remove (<[p:=e]> h) l p), (total_of_Remove h l p) by done.
  rewrite total_of_insert_notin
    by (rewrite elem_of_list_Remove; tauto).
  unfold size_at at 1. rewrite lookup_insert_eq. simpl. lia.
Qed.

Lemma total_of_nonneg h l :
  (∀ p e, p ∈ l → h !! p = Some e → 0 ≤ entry_size e) → 0 ≤ total_of h l.
Proof.
  induction l as [|q l IH]; intros Hpos; simpl; [done|].
  assert (0 ≤ total_of h l) by (apply IH; intros; eapply Hpos; [by right|done]).
  assert (0 ≤ size_at h q); [|lia].
  unfold size_at. destruct (h !! q) as [e|] eqn:He; simpl; [|done].
  eapply Hpos; [by left|done].
Qed.

Lemma total_of_elem_le h l p e :
  (∀ p e, p ∈ l → h !! p = Some e → 0 ≤ entry_size e) →
  p ∈ l → h !! p = Some e → entry_size e ≤ total_of h l.
Proof.
  induction l as [|q l IH]; intros Hpos Hp He; [by apply elem_of_nil in Hp|].
  simpl.
  assert (Hl : ∀ p e, p ∈ l → h !! p = Some e → 0 ≤ entry_size e)
    by (intros; eapply Hpos; [by right|done]).
  pose proof (total_of_nonneg h l Hl).
  apply elem_of_cons in Hp as [->|Hp].
  - unfold size_at. rewrite He. simpl. lia.
  - specialize (IH Hl Hp He).
    assert (0 ≤ size_at h q); [|lia].
    unfold size_at. destruct (h !! q) as [e'|] eqn:He'; simpl; [|done].
    eapply Hpos; [by left|done].
Qed.

(** ** The invariant is kept by every change of the state *)

Lemma consistent_NewLRUCache capacity :
  is_uint64 capacity → consistent (NewLRUCache capacity).
Proof.
  intros Hc. split; simpl; try done.
  - apply NoDup_nil_2.
  - intros p Hp. by apply elem_of_nil in Hp.
  - intros p Hp. by apply elem_of_nil in Hp.
  - intros k p. rewrite lookup_empty. split; [done|].
    intros [Hp _]. by apply elem_of_nil in Hp.
Qed.

(** An entry leaves the list and the index. *)
Lemma consistent_remove c p e :
  consistent c → p ∈ lru_list c → lru_heap c !! p = Some e →
  consistent
    (mkLRU (list_Remove p (lru_list c)) (delete (entry_key e) (lru_table c))
       (uint64_sub (lru_size c) (uint64 (entry_size e)))
       (lru_capacity c) (lru_heap c) (lru_next c)).
Proof.
  intros [Hnd Hnx Hhp Htb Hsz Hcp] Hp He. split; simpl; try done.
  - by apply NoDup_list_Remove.
  - intros q [Hq _]%elem_of_list_Remove. by apply Hnx.
  - intros q [Hq _]%elem_of_list_Remove. by apply Hhp.
  - intros k q. rewrite lookup_delete_Some, elem_of_list_Remove, Htb.
    split.
    + intros (Hk & Hq & e' & He' & Hk'). split_and!; [done| |by eauto].
      intros ->. congruence.
    + intros ((Hq & Hqp) & e' & He' & Hk'). split_and!; [|done|by eauto].
      intros Hk. apply Hqp.
      assert (lru_table c !! k = Some p) as Hkp by (apply Htb; eauto).
      assert (lru_table c !! k = Some q) as Hkq by (apply Htb; eauto).
      congruence.
  - rewrite Hsz, uint64_sub_mod. f_equal. unfold total. simpl.
    rewrite (total_of_Remove (lru_heap c) (lru_list c) p) by done.
    unfold size_at. rewrite He. simpl. lia.
Qed.

(** A new entry enters at the front, behind a fresh element. *)
Lemma consistent_push c key value now :
  consistent c → lru_table c !! key = None →
  consistent
    (mkLRU (list_PushFront (lru_next c) (lru_list c))
       (<[key := lru_next c]> (lru_table c))
       (uint64_add (lru_size c) (uint64 (Size value)))
       (lru_capacity c)
       (<[lru_next c := mkEntry key value (Size value) now]> (lru_heap c))
       (S (lru_next c))).
Proof.
  intros [Hnd Hnx Hhp Htb Hsz Hcp] Hk.
  assert (Hfresh : lru_next c ∉ lru_list c)
    by (intros Hin; apply Hnx in Hin; lia).
  unfold list_PushFront. split; simpl; try done.
  - by apply NoDup_cons_2.
  - intros p [->|Hp]%elem_of_cons; [lia|]. apply Hnx in Hp. lia.
  - intros p [->|Hp]%elem_of_cons.
    + rewrite lookup_insert_eq. eauto.
    + rewrite lookup_insert_ne by (intros <-; done). by apply Hhp.
  - intros k p. rewrite elem_of_cons.
    destruct (decide (key = k)) as [->|Hne].
    + rewrite lookup_insert_eq. split.
      * intros [= <-]. split; [by left|]. rewrite lookup_insert_eq. eauto.
      * intros [[->|Hp] (e & He & Hke)]; [done|].
        rewrite lookup_insert_ne in He by (intros <-; done).
        assert (lru_table c !! k = Some p) by (apply Htb; eauto).
        congruence.
    + rewrite lookup_insert_ne by done. rewrite Htb. split.
      * intros (Hp & e & He & Hke). split; [by right|].
        exists e. rewrite lookup_insert_ne by (intros <-; done). done.
      * intros [[->|Hp] (e & He & Hke)].
        -- rewrite lookup_insert_eq in He. by simplify_eq.
        -- rewrite lookup_insert_ne in He by (intros <-; done). eauto.
  - rewrite Hsz, uint64_add_mod. f_equal. unfold total. simpl.
    rewrite total_of_insert_notin by done.
    unfold size_at. rewrite lookup_insert_eq. simpl. lia.
Qed.

(** The entry behind an element of the list is overwritten; its key
    stays. *)
Lemma consistent_store c p e e' sz :
  consistent c → p ∈ lru_list c → lru_heap c !! p = Some e →
  entry_key e' = entry_key e → entry_size e' = Size (entry_value e') →
  sz = uint64 (lru_size c + (entry_size e' - entry_size e)) →
  consistent
    (mkLRU (lru_list c) (lru_table c) sz (lru_capacity c)
       (<[p := e']> (lru_heap c)) (lru_next c)).
Proof.
  intros [Hnd Hnx Hhp Htb Hsz Hcp] Hp He Hkey Hsize ->.
  split; simpl; try done.
  - intros q Hq. destruct (decide (p = q)) as [<-|Hne].
    + rewrite lookup_insert_eq. eauto.
    + rewrite lookup_insert_ne by done. by apply Hhp.
  - intros k q. rewrite Htb. split.
    + intros (Hq & e0 & He0 & Hk). split; [done|].
      destruct (decide (p = q)) as [<-|Hne].
      * rewrite lookup_insert_eq. exists e'. split; [done|]. congruence.
      * rewrite lookup_insert_ne by done. eauto.
    + intros (Hq & e0 & He0 & Hk). split; [done|].
      destruct (decide (p = q)) as [<-|Hne].
      * rewrite lookup_insert_eq in He0. simplify_eq. eauto.
      * rewrite lookup_insert_ne in He0 by done. eauto.
  - rewrite Hsz. unfold total. simpl.
    rewrite total_of_insert_in by done.
    unfold size_at. rewrite He. simpl.
    unfold uint64. rewrite Zplus_mod_idemp_l. f_equal. lia.
Qed.

(** The elements of the list change places. *)
Lemma consistent_reorder c l' :
  consistent c → l' ≡ₚ lru_list c →
  consistent
    (mkLRU l' (lru_table c) (lru_size c) (lru_capacity c) (lru_heap c)
       (lru_next c)).
Proof.
  intros [Hnd Hnx Hhp Htb Hsz Hcp] Hperm. split; simpl; try done.
  - by rewrite Hperm.
  - intros q Hq. rewrite Hperm in Hq. by apply Hnx.
  - intros q Hq. rewrite Hperm in Hq. by apply Hhp.
  - intros k q. rewrite Htb. by rewrite Hperm.
  - rewrite Hsz. unfold total. simpl. f_equal.
    symmetry. by apply total_of_Permutation.
Qed.

Lemma consistent_capacity c capacity :
  consistent c → is_uint64 capacity →
  consistent
    (mkLRU (lru_list c) (lru_table c) (lru_size c) capacity (lru_heap c)
       (lru_next c)).
Proof. intros [Hnd Hnx Hhp Htb Hsz Hcp] Hc. by split. Qed.

Lemma consistent_Clear c : consistent c → consistent (Clear c).
Proof.
  intros [Hnd Hnx Hhp Htb Hsz Hcp]. split; simpl; try done.
  - apply NoDup_nil_2.
  - intros p Hp. by apply elem_of_nil in Hp.
  - intros p Hp. by apply elem_of_nil in Hp.
  - intros k p. rewrite lookup_empty. split; [done|].
    intros [Hp _]. by apply elem_of_nil in Hp.
Qed.

Lemma consistent_size_range c : consistent c → is_uint64 (lru_size c).
Proof. intros Hc. rewrite (cons_size c Hc). apply uint64_range. Qed.

(** What the index holds is in the list and in the heap. *)
Lemma consistent_lookup c key p :
  consistent c → lru_table c !! key = Some p →
  ∃ e, present c p e ∧ entry_key e = key ∧
       entry_size e = Size (entry_value e).
Proof.
  intros Hc Hk. apply (cons_table c Hc) in Hk as (Hp & e & He & Hkey).
  destruct (cons_heap c Hc p Hp) as (e' & He' & Hsize).
  exists e. repeat split; try done. congruence.
Qed.

(** ** [moveToFront] *)

Lemma moveToFront_Ok c p e now :
  lru_heap c !! p = Some e →
  moveToFront p now c =
    Ok (mkLRU (list_MoveToFront p (lru_list c)) (lru_table c) (lru_size c)
          (lru_capacity c)
          (<[p := mkEntry (entry_key e) (entry_value e) (entry_size e) now]>
             (lru_heap c))
          (lru_next c)).
Proof. intros He. unfold moveToFront, deref. by rewrite He. Qed.

Lemma moveToFront_consistent c p e now c' :
  consistent c → present c p e → moveToFront p now c = Ok c' →
  consistent c'.
Proof.
  intros Hc [Hp He] Hmv. rewrite (moveToFront_Ok c p e now He) in Hmv.
  injection Hmv as <-.
  destruct (cons_heap c Hc p Hp) as (e0 & He0 & Hsize).
  assert (e0 = e) as -> by congruence.
  pose proof (consistent_reorder
           (mkLRU (lru_list c) (lru_table c) (lru_size c) (lru_capacity c)
              (<[p := mkEntry (entry_key e) (entry_value e) (entry_size e)
                        now]> (lru_heap c)) (lru_next c))
           (list_MoveToFront p (lru_list c))) as Hr.
  simpl in Hr. apply Hr.
  - apply (consistent_store c p e); try done. simpl.
    rewrite Z.sub_diag, Z.add_0_r. symmetry.
    apply uint64_small, consistent_size_range, Hc.
  - simpl. apply list_MoveToFront_Permutation, Hc.
Qed.

(** ** The eviction loop *)

(** Over capacity, the list is not empty: an empty list accounts for 0. *)
Lemma over_capacity_nonempty c :
  consistent c → lru_capacity c < lru_size c →
  ∃ l' p e, lru_list c = l' ++ [p] ∧ (p ∉ l') ∧ lru_heap c !! p = Some e.
Proof.
  intros Hc Hover.
  destruct (list_Back (lru_list c)) as [p|] eqn:Hback.
  - apply list_Back_Some in Hback as [l' Hl]. exists l', p.
    assert (Hp : p ∈ lru_list c) by (rewrite Hl; set_solver).
    destruct (cons_heap c Hc p Hp) as (e & He & _). exists e.
    split_and!; try done.
    pose proof (cons_nodup c Hc) as Hnd. rewrite Hl in Hnd.
    apply NoDup_app in Hnd as (_ & Hdisj & _).
    intros Hin. apply (Hdisj p Hin). by left.
  - apply list_Back_None in Hback.
    pose proof (cons_size c Hc) as Hsz. unfold total in Hsz.
    rewrite Hback in Hsz. simpl in Hsz.
    pose proof (cons_capacity c Hc) as [Hcap _].
    unfold uint64 in Hsz. rewrite Z.mod_0_l in Hsz by discriminate. lia.
Qed.

Lemma evict_Ok c l' p e :
  lru_list c = l' ++ [p] → p ∉ l' → lru_heap c !! p = Some e →
  evict c =
    Ok (mkLRU l' (delete (entry_key e) (lru_table c))
          (uint64_sub (lru_size c) (uint64 (entry_size e)))
          (lru_capacity c) (lru_heap c) (lru_next c)).
Proof.
  intros Hl Hp He. unfold evict, deref, list_Back.
  rewrite Hl, last_snoc, He. simpl. by rewrite list_Remove_back.
Qed.

Lemma evict_consistent c l' p e :
  consistent c → lru_list c = l' ++ [p] → p ∉ l' →
  lru_heap c !! p = Some e →
  consistent
    (mkLRU l' (delete (entry_key e) (lru_table c))
       (uint64_sub (lru_size c) (uint64 (entry_size e)))
       (lru_capacity c) (lru_heap c) (lru_next c)).
Proof.
  intros Hc Hl Hp He.
  assert (Hin : p ∈ lru_list c) by (rewrite Hl; set_solver).
  pose proof (consistent_remove c p e Hc Hin He) as Hr.
  by rewrite Hl, list_Remove_back in Hr.
Qed.

(** With more fuel than the list has elements the loop ends, without a
    panic, on a consistent state within capacity; it has taken elements
    off the back of the list, [gone], one per turn, and nothing else; and it
    has taken none that it could have kept: with any of them still in the
    list the accounted size was over the capacity. *)
Lemma checkCapacity_loop_spec fuel c :
  consistent c → (length (lru_list c) < fuel)%nat →
  ∃ c' gone,
    checkCapacity_loop fuel c = Ok c' ∧ consistent c' ∧
    lru_size c' ≤ lru_capacity c' ∧
    lru_list c = lru_list c' ++ gone ∧
    lru_heap c' = lru_heap c ∧ lru_capacity c' = lru_capacity c ∧
    lru_next c' = lru_next c ∧
    (∀ fuel', (length gone ≤ fuel')%nat →
              checkCapacity_loop fuel' c = Ok c') ∧
    (∀ i, (i < length gone)%nat →
          lru_capacity c <
            uint64 (total_of (lru_heap c) (lru_list c' ++ take (S i) gone))).
Proof.
  revert c. induction fuel as [|fuel IH]; intros c Hc Hlen; [lia|].
  simpl. case_bool_decide as Hover.
  - destruct (over_capacity_nonempty c Hc Hover) as (l' & p & e & Hl & Hp & He).
    rewrite (evict_Ok c l' p e Hl Hp He). simpl.
    pose proof (evict_consistent c l' p e Hc Hl Hp He) as Hc1.
    destruct (IH _ Hc1) as (c' & gone & Hrun & Hc' & Hle & Hlist & Hheap
                            & Hcap & Hnext & Hfuel & Hforced).
    { simpl. rewrite Hl, length_app in Hlen. simpl in Hlen. lia. }
    exists c', (gone ++ [p]). simpl in *.
    split_and!; try done.
    + by rewrite Hl, Hlist, app_assoc.
    + intros fuel' Hfuel'. rewrite length_app in Hfuel'. simpl in Hfuel'.
      destruct fuel' as [|fuel']; [lia|]. simpl.
      rewrite bool_decide_eq_true_2 by done.
      rewrite (evict_Ok c l' p e Hl Hp He). simpl.
      apply Hfuel. lia.
    + intros i Hi. rewrite length_app in Hi. simpl in Hi.
      destruct (decide (i < length gone)%nat) as [Hlt|Hge].
      * rewrite take_app_le by lia. by apply Hforced.
      * rewrite take_ge by (rewrite length_app; simpl; lia).
        rewrite app_assoc, <- Hlist, <- Hl.
        fold (total c). by rewrite <- (cons_size c Hc).
  - exists c, []. split_and!; try done.
    + lia.
    + by rewrite app_nil_r.
    + intros [|fuel'] _; simpl; by rewrite bool_decide_eq_false_2.
    + simpl. lia.
Qed.

Lemma checkCapacity_spec c :
  consistent c →
  ∃ c' gone,
    checkCapacity c = Ok c' ∧ consistent c' ∧
    lru_size c' ≤ lru_capacity c' ∧
    lru_list c = lru_list c' ++ gone ∧
    lru_heap c' = lru_heap c ∧ lru_capacity c' = lru_capacity c ∧
    lru_next c' = lru_next c ∧
    (∀ fuel', (length gone ≤ fuel')%nat →
              checkCapacity_loop fuel' c = Ok c') ∧
    (∀ i, (i < length gone)%nat →
          lru_capacity c <
            uint64 (total_of (lru_heap c) (lru_list c' ++ take (S i) gone))).
Proof. intros Hc. apply checkCapacity_loop_spec; [done|lia]. Qed.

(** The model never runs out of fuel, whatever the state. *)
Lemma checkCapacity_loop_fuel fuel c :
  (length (lru_list c) < fuel)%nat → checkCapacity_loop fuel c ≠ OutOfFuel.
Proof.
  revert c. induction fuel as [|fuel IH]; intros c Hlen; [lia|].
  simpl. case_bool_decide; [|done].
  unfold evict. destruct (list_Back (lru_list c)) as [p|] eqn:Hback; [|done].
  unfold deref. destruct (lru_heap c !! p) as [e|]; [|done]. simpl.
  apply IH. simpl.
  apply list_Back_Some in Hback as [l' Hl].
  assert (Hp : p ∈ lru_list c) by (rewrite Hl; set_solver).
  pose proof (list_Remove_length p (lru_list c) Hp). lia.
Qed.

(** ** The operations keep the invariant and do not panic *)

Lemma addNew_spec c key value now :
  consistent c → lru_table c !! key = None →
  ∃ c' gone,
    addNew key value now c = Ok c' ∧ consistent c' ∧
    lru_size c' ≤ lru_capacity c' ∧
    lru_next c :: lru_list c = lru_list c' ++ gone ∧
    lru_heap c' =
      <[lru_next c := mkEntry key value (Size value) now]> (lru_heap c) ∧
    lru_capacity c' = lru_capacity c.
Proof.
  intros Hc Hk. unfold addNew.
  pose proof (consistent_push c key value now Hc Hk) as Hpush.
  destruct (checkCapacity_spec _ Hpush)
    as (c' & gone & Hrun & Hc' & Hle & Hlist & Hheap & Hcap & _).
  exists c', gone. simpl in *. by split_and!.
Qed.

Lemma updateInplace_spec c p e value now :
  consistent c → present c p e →
  ∃ c', updateInplace p value now c = Ok c' ∧ consistent c' ∧
        lru_size c' ≤ lru_capacity c' ∧ lru_capacity c' = lru_capacity c.
Proof.
  intros Hc [Hp He]. unfold updateInplace, deref. rewrite He. simpl.
  set (e1 := mkEntry (entry_key e) value (Size value) (entry_timeAccessed e)).
  set (c1 := mkLRU _ _ _ _ _ _).
  assert (Hc1 : consistent c1).
  { apply (consistent_store c p e e1); try done.
    simpl. apply uint64_add_int. }
  assert (He1 : lru_heap c1 !! p = Some e1) by (simpl; apply lookup_insert_eq).
  destruct (moveToFront p now c1) as [c2| |] eqn:Hmv;
    [|by rewrite (moveToFront_Ok c1 p e1 now He1) in Hmv..].
  assert (Hc2 : consistent c2)
    by (apply (moveToFront_consistent c1 p e1 now c2); [done|by split|done]).
  assert (Hcap2 : lru_capacity c2 = lru_capacity c)
    by (rewrite (moveToFront_Ok c1 p e1 now He1) in Hmv; by injection Hmv as <-).
  simpl.
  destruct (checkCapacity_spec c2 Hc2)
    as (c' & gone & Hrun & Hc' & Hle & _ & _ & Hcap & _).
  exists c'. split_and!; try done. congruence.
Qed.

Lemma Get_consistent c key now v c' :
  consistent c → Get key now c = Ok (v, c') → consistent c'.
Proof.
  intros Hc. unfold Get.
  destruct (lru_table c !! key) as [p|] eqn:Hk; [|by intros [= <- <-]].
  destruct (consistent_lookup c key p Hc Hk) as (e & Hpe & _).
  destruct (moveToFront p now c) as [c1| |] eqn:Hmv; simpl; try done.
  destruct (deref c1 p) as [e1| |]; simpl; try done.
  intros [= <- <-]. by eapply moveToFront_consistent.
Qed.

Lemma Get_Ok c key now : consistent c → is_Ok (Get key now c).
Proof.
  intros Hc. unfold Get.
  destruct (lru_table c !! key) as [p|] eqn:Hk; [|by eexists].
  destruct (consistent_lookup c key p Hc Hk) as (e & [Hp He] & _).
  rewrite (moveToFront_Ok c p e now He). simpl.
  unfold deref. simpl. rewrite lookup_insert_eq. simpl. by eexists.
Qed.

Lemma Set_spec c key value now :
  consistent c →
  ∃ c', Set_ key value now c = Ok c' ∧ consistent c'.
Proof.
  intros Hc. unfold Set_.
  destruct (lru_table c !! key) as [p|] eqn:Hk.
  - destruct (consistent_lookup c key p Hc Hk) as (e & Hpe & _).
    eexists. split; [apply (moveToFront_Ok c p e), Hpe|].
    eapply moveToFront_consistent; [done..|]. apply moveToFront_Ok, Hpe.
  - destruct (addNew_spec c key value now Hc Hk) as (c' & ? & ? & ? & _).
    by exists c'.
Qed.

Lemma SetIfAbsent_spec c key value now :
  consistent c →
  ∃ c', SetIfAbsent key value now c = Ok c' ∧ consistent c'.
Proof.
  intros Hc. unfold SetIfAbsent.
  destruct (lru_table c !! key) as [p|] eqn:Hk; [by exists c|].
  destruct (addNew_spec c key value now Hc Hk) as (c' & ? & ? & ? & _).
  by exists c'.
Qed.

Lemma Delete_spec c key :
  consistent c →
  ∃ b c', Delete key c = Ok (b, c') ∧ consistent c'.
Proof.
  intros Hc. unfold Delete.
  destruct (lru_table c !! key) as [p|] eqn:Hk; [|by exists false, c].
  destruct (consistent_lookup c key p Hc Hk) as (e & [Hp He] & Hkey & _).
  unfold deref. rewrite He. simpl. eexists _, _. split; [done|].
  rewrite <- Hkey. by apply consistent_remove.
Qed.

Lemma SetCapacity_spec c capacity :
  consistent c → is_uint64 capacity →
  ∃ c', SetCapacity capacity c = Ok c' ∧ consistent c' ∧
        lru_size c' ≤ lru_capacity c' ∧ lru_capacity c' = capacity.
Proof.
  intros Hc Hcap. unfold SetCapacity.
  destruct (checkCapacity_spec _ (consistent_capacity c capacity Hc Hcap))
    as (c' & gone & Hrun & Hc' & Hle & _ & _ & Hcap' & _).
  exists c'. by split_and!.
Qed.

(** ** The entries of a consistent state *)

Lemma walk_entries c l :
  (∀ p, p ∈ l → is_Some (lru_heap c !! p)) →
  walk c l = Ok (omap (λ p, lru_heap c !! p) l) ∧
  length (omap (λ p, lru_heap c !! p) l) = length l.
Proof.
  induction l as [|p l IH]; intros Hl; [done|].
  destruct (Hl p) as [e He]; [by left|].
  destruct IH as [IHw IHl]; [intros; apply Hl; by right|].
  simpl. unfold deref. rewrite He. simpl. rewrite IHw. simpl.
  split; [done|]. f_equal. exact IHl.
Qed.

Lemma consistent_walk c :
  consistent c → walk c (lru_list c) = Ok (entries c).
Proof.
  intros Hc. apply walk_entries. intros p Hp.
  destruct (cons_heap c Hc p Hp) as (e & He & _). by exists e.
Qed.

Lemma consistent_entries_length c :
  consistent c → length (entries c) = length (lru_list c).
Proof.
  intros Hc. apply walk_entries. intros p Hp.
  destruct (cons_heap c Hc p Hp) as (e & He & _). by exists e.
Qed.

Lemma elem_of_entries c e : e ∈ entries c ↔ ∃ p, present c p e.
Proof.
  unfold entries, present. rewrite list_elem_of_omap. naive_solver.
Qed.

Lemma consistent_Keys c :
  consistent c → Keys c = Ok (entry_key <$> entries c).
Proof. intros Hc. unfold Keys. by rewrite consistent_walk. Qed.

Lemma consistent_Items c :
  consistent c →
  Items c = Ok (entry_item <$> entries c).
Proof. intros Hc. unfold Items. by rewrite consistent_walk. Qed.

(** Two elements of the list never hold the same key. *)
Lemma consistent_key_inj c p q e1 e2 :
  consistent c → present c p e1 → present c q e2 →
  entry_key e1 = entry_key e2 → p = q.
Proof.
  intros Hc [Hp He1] [Hq He2] Hkey.
  assert (lru_table c !! entry_key e1 = Some p)
    by (apply (cons_table c Hc); eauto).
  assert (lru_table c !! entry_key e1 = Some q)
    by (apply (cons_table c Hc); eauto).
  congruence.
Qed.

Lemma NoDup_keys h l :
  NoDup l →
  (∀ p q e1 e2, p ∈ l → q ∈ l → h !! p = Some e1 → h !! q = Some e2 →
                entry_key e1 = entry_key e2 → p = q) →
  NoDup (entry_key <$> omap (λ p, h !! p) l).
Proof.
  induction 1 as [|p l Hp Hl IH]; intros Hinj; simpl; [apply NoDup_nil_2|].
  assert (IH' : NoDup (entry_key <$> omap (λ p, h !! p) l)).
  { apply IH. intros p' q' e1 e2 Hp' Hq'. apply Hinj; by right. }
  destruct (h !! p) as [e|] eqn:He; [|done]. simpl.
  apply NoDup_cons_2; [|done].
  intros (e' & Hk & (q & Hq & He')%list_elem_of_omap)%list_elem_of_fmap.
  assert (p = q); [|by subst].
  apply (Hinj p q e e'); try done; [by left|by right].
Qed.

Lemma consistent_NoDup_keys c :
  consistent c → NoDup (entry_key <$> entries c).
Proof.
  intros Hc. apply NoDup_keys; [apply Hc|].
  intros p q e1 e2 Hp Hq He1 He2. by apply (consistent_key_inj c).
Qed.



(** ** States without wrap-around *)

Lemma exact_total_range c : consistent c → exact c → is_uint64 (total c).
Proof.
  intros Hc [_ Hsz]. rewrite <- Hsz. by apply consistent_size_range.
Qed.

Lemma exact_NewLRUCache capacity : exact (NewLRUCache (V:=V) capacity).
Proof. split; [|done]. intros p e [Hp _]. by apply elem_of_nil in Hp. Qed.

Lemma exactb_exact c : exactb c = true → exact c.
Proof.
  unfold exactb. intros [Hall Hsz%bool_decide_eq_true]%andb_true_iff.
  split; [|done]. intros p e [Hp He].
  rewrite forallb_forall in Hall.
  apply list_elem_of_In, Hall, bool_decide_eq_true in Hp.
  unfold size_at in Hp. by rewrite He in Hp.
Qed.

(** What is left when elements have gone from the back is exact again. *)
Lemma exact_prefix c c' gone :
  consistent c → consistent c' → exact c →
  lru_list c = lru_list c' ++ gone → lru_heap c' = lru_heap c →
  exact c' ∧ total c' ≤ total c.
Proof.
  intros Hc Hc' Hex Hlist Hheap.
  pose proof (exact_total_range c Hc Hex) as Hrange.
  destruct Hex as [Hpos Hsz].
  assert (Hpos' : ∀ p e, present c' p e → 0 ≤ entry_size e).
  { intros p e [Hp He]. apply (Hpos p). split; [|congruence].
    rewrite Hlist. apply elem_of_app. by left. }
  assert (Hgone : 0 ≤ total_of (lru_heap c) gone).
  { apply total_of_nonneg. intros p e Hp He. apply (Hpos p). split; [|done].
    rewrite Hlist. apply elem_of_app. by right. }
  assert (Htot : total c = total c' + total_of (lru_heap c) gone).
  { unfold total. by rewrite Hlist, total_of_app, Hheap. }
  assert (0 ≤ total c').
  { apply total_of_nonneg. intros p e Hp He. by apply (Hpos' p). }
  split; [|lia]. split; [done|].
  rewrite (cons_size c' Hc'). apply uint64_small.
  unfold is_uint64 in *. lia.
Qed.

(** ** Within capacity the loop does nothing *)

Lemma checkCapacity_fits c :
  lru_size c ≤ lru_capacity c → checkCapacity c = Ok c.
Proof.
  intros Hle. unfold checkCapacity. simpl.
  rewrite bool_decide_eq_false_2; [done|lia].
Qed.

Lemma addNew_fits c key value now :
  0 ≤ Size value →
  0 ≤ lru_size c →
  lru_size c + Size value ≤ lru_capacity c →
  lru_capacity c < uint64_modulus →
  addNew key value now c =
    Ok (mkLRU (lru_next c :: lru_list c) (<[key := lru_next c]> (lru_table c))
          (lru_size c + Size value) (lru_capacity c)
          (<[lru_next c := mkEntry key value (Size value) now]> (lru_heap c))
          (S (lru_next c))).
Proof.
  intros Hv Hs Hfit Hcap. unfold addNew. simpl.
  assert (Hsz : uint64_add (lru_size c) (uint64 (Size value))
                = lru_size c + Size value).
  { unfold uint64_add. rewrite (uint64_small (Size value))
      by (unfold is_uint64; lia).
    apply uint64_small. unfold is_uint64. lia. }
  rewrite Hsz. apply checkCapacity_fits. simpl. lia.
Qed.

(** ** Insertion without eviction *)

Lemma entries_push c p e :
  p ∉ lru_list c →
  omap (λ q, <[p:=e]> (lru_heap c) !! q) (p :: lru_list c)
  = e :: entries c.
Proof.
  intros Hp. simpl. rewrite lookup_insert_eq. f_equal.
  unfold entries. apply list_omap_ext. apply Forall2_same_length_lookup_2; [done|].
  intros i q q' Hq Hq'. assert (q = q') as <- by congruence.
  rewrite lookup_insert_ne; [done|].
  intros <-. apply Hp. by eapply list_elem_of_lookup_2.
Qed.

Lemma addNew_fits_spec c key value now :
  consistent c → exact c → lru_table c !! key = None →
  0 ≤ Size value → lru_size c + Size value ≤ lru_capacity c →
  ∃ c', addNew key value now c = Ok c' ∧ consistent c' ∧ exact c' ∧
        entries c' = mkEntry key value (Size value) now :: entries c ∧
        lru_table c' = <[key := lru_next c]> (lru_table c) ∧
        lru_size c' = lru_size c + Size value ∧
        lru_capacity c' = lru_capacity c.
Proof.
  intros Hc [Hpos Hsz] Hk Hv Hfit.
  pose proof (consistent_size_range c Hc) as [Hs0 _].
  pose proof (cons_capacity c Hc) as [_ Hcap].
  rewrite (addNew_fits c key value now) by done.
  assert (Hfresh : lru_next c ∉ lru_list c)
    by (intros Hin; apply (cons_next c Hc) in Hin; lia).
  assert (Heq : uint64_add (lru_size c) (uint64 (Size value))
                = lru_size c + Size value).
  { unfold uint64_add. rewrite (uint64_small (Size value))
      by (unfold is_uint64; lia).
    apply uint64_small. unfold is_uint64. lia. }
  pose proof (consistent_push c key value now Hc Hk) as Hpush.
  rewrite Heq in Hpush. unfold list_PushFront in Hpush.
  eexists. split; [reflexivity|]. split_and!; try done.
  - split; simpl.
    + intros p e [[->|Hp]%elem_of_cons He]; simpl in He.
      * rewrite lookup_insert_eq in He. by injection He as <-.
      * rewrite lookup_insert_ne in He by (intros <-; done).
        by apply (Hpos p).
    + unfold total. simpl. rewrite total_of_insert_notin by done.
      unfold size_at. rewrite lookup_insert_eq. simpl.
      fold (total c). lia.
  - by apply entries_push.
Qed.

Lemma sum_sizes_nonneg (items : list (Item V)) :
  (∀ item, item ∈ items → 0 ≤ Size (item_Value item)) → 0 ≤ sum_sizes items.
Proof.
  induction items as [|item items IH]; intros Hpos; simpl; [done|].
  assert (0 ≤ Size (item_Value item)) by (apply Hpos; by left).
  assert (0 ≤ sum_sizes items) by (apply IH; intros; apply Hpos; by right).
  lia.
Qed.

Lemma sum_sizes_entries h l :
  (∀ p, p ∈ l →
        ∃ e, h !! p = Some e ∧ entry_size e = Size (entry_value e)) →
  sum_sizes (entry_item <$> omap (λ p, h !! p) l) = total_of h l.
Proof.
  induction l as [|p l IH]; intros Hl; [done|].
  destruct (Hl p) as (e & He & Hsize); [by left|].
  assert (Hstep : omap (λ p, h !! p) (p :: l) = e :: omap (λ p, h !! p) l)
    by (simpl; by rewrite He).
  rewrite Hstep, fmap_cons.
  change (Size (entry_value e) + sum_sizes (entry_item <$> omap (λ p, h !! p) l)
          = size_at h p + total_of h l).
  rewrite IH by (intros; apply Hl; by right).
  unfold size_at. rewrite He. simpl. lia.
Qed.

(** ** Operations that keep the accounted size exact *)

Lemma exact_intro c :
  consistent c → (∀ p e, present c p e → 0 ≤ entry_size e) →
  total c < uint64_modulus → exact c.
Proof.
  intros Hc Hpos Hlt. split; [done|].
  rewrite (cons_size c Hc). apply uint64_small. split; [|done].
  apply total_of_nonneg. intros p e Hp He. by apply (Hpos p).
Qed.

Lemma Size_below_half (v : V) : Size v < 2 ^ 63.
Proof. pose proof (Size_int v) as [_ Hmax]. unfold int_max in Hmax. lia. Qed.

Lemma moveToFront_exact c p e now c' :
  consistent c → exact c → present c p e → moveToFront p now c = Ok c' →
  exact c' ∧ lru_size c' = lru_size c ∧ lru_capacity c' = lru_capacity c.
Proof.
  intros Hc [Hpos Hsz] [Hp He] Hmv.
  pose proof (moveToFront_consistent c p e now c' Hc (conj Hp He) Hmv) as Hc'.
  rewrite (moveToFront_Ok c p e now He) in Hmv. injection Hmv as <-.
  split; [|done]. split; simpl.
  - intros q e' [Hq He']. simpl in Hq, He'.
    rewrite (list_MoveToFront_Permutation p _ (cons_nodup c Hc)) in Hq.
    destruct (decide (p = q)) as [<-|Hne].
    + rewrite lookup_insert_eq in He'. injection He' as <-. simpl.
      by apply (Hpos p).
    + rewrite lookup_insert_ne in He' by done. by apply (Hpos q).
  - rewrite Hsz. unfold total. simpl.
    rewrite (total_of_Permutation _ (list_MoveToFront p (lru_list c))
               (lru_list c))
      by apply list_MoveToFront_Permutation, Hc.
    rewrite total_of_insert_in by (done || apply Hc).
    unfold size_at. rewrite He. simpl. lia.
Qed.

Lemma checkCapacity_modest c :
  consistent c → exact c → lru_capacity c ≤ 2 ^ 63 →
  ∃ c', checkCapacity c = Ok c' ∧ consistent c' ∧ modest c'.
Proof.
  intros Hc Hex Hcap.
  destruct (checkCapacity_spec c Hc)
    as (c' & gone & Hrun & Hc' & Hle & Hlist & Hheap & Hcap' & _).
  destruct (exact_prefix c c' gone Hc Hc' Hex Hlist Hheap) as [Hex' _].
  exists c'. split_and!; try done. unfold modest. split_and!; [done|done|lia].
Qed.

Lemma addNew_modest c key value now :
  consistent c → modest c → lru_table c !! key = None → 0 ≤ Size value →
  ∃ c', addNew key value now c = Ok c' ∧ consistent c' ∧ modest c'.
Proof.
  intros Hc ([Hpos Hsz] & Hle & Hcap) Hk Hv. unfold addNew.
  pose proof (consistent_push c key value now Hc Hk) as Hpush.
  assert (Hfresh : lru_next c ∉ lru_list c)
    by (intros Hin; apply (cons_next c Hc) in Hin; lia).
  apply checkCapacity_modest; [done| |done].
  apply exact_intro; [done| |].
  - intros p e [[->|Hp]%elem_of_cons He]; simpl in He.
    + rewrite lookup_insert_eq in He. by injection He as <-.
    + rewrite lookup_insert_ne in He by (intros <-; done). by apply (Hpos p).
  - unfold total, list_PushFront. simpl.
    rewrite total_of_insert_notin by done.
    unfold size_at. rewrite lookup_insert_eq. simpl. fold (total c).
    pose proof (Size_below_half value). unfold uint64_modulus. lia.
Qed.

Lemma updateInplace_modest c p e value now :
  consistent c → modest c → present c p e → 0 ≤ Size value →
  ∃ c', updateInplace p value now c = Ok c' ∧ consistent c' ∧ modest c'.
Proof.
  intros Hc ([Hpos Hsz] & Hle & Hcap) [Hp He] Hv.
  unfold updateInplace, deref. rewrite He. simpl.
  set (e1 := mkEntry (entry_key e) value (Size value) (entry_timeAccessed e)).
  set (c1 := mkLRU _ _ _ _ _ _).
  assert (Hc1 : consistent c1).
  { apply (consistent_store c p e e1); try done.
    simpl. apply uint64_add_int. }
  assert (Hold : 0 ≤ entry_size e ≤ total c).
  { split; [by apply (Hpos p)|].
    apply (total_of_elem_le _ _ p); try done.
    intros q e' Hq He'. by apply (Hpos q). }
  assert (Hex1 : exact c1).
  { apply exact_intro; [done| |].
    - intros q e' [Hq He']. simpl in Hq, He'.
      destruct (decide (p = q)) as [<-|Hne].
      + rewrite lookup_insert_eq in He'. by injection He' as <-.
      + rewrite lookup_insert_ne in He' by done. by apply (Hpos q).
    - unfold total. simpl.
      rewrite total_of_insert_in by (done || apply Hc).
      unfold size_at. rewrite He. simpl. fold (total c).
      pose proof (Size_below_half value). unfold uint64_modulus. lia. }
  assert (He1 : lru_heap c1 !! p = Some e1) by (simpl; apply lookup_insert_eq).
  destruct (moveToFront p now c1) as [c2| |] eqn:Hmv;
    [|by rewrite (moveToFront_Ok c1 p e1 now He1) in Hmv..].
  assert (Hpe1 : present c1 p e1) by by split.
  pose proof (moveToFront_consistent c1 p e1 now c2 Hc1 Hpe1 Hmv) as Hc2.
  destruct (moveToFront_exact c1 p e1 now c2 Hc1 Hex1 Hpe1 Hmv)
    as (Hex2 & _ & Hcap2).
  simpl. apply checkCapacity_modest; [done|done|].
  rewrite Hcap2. simpl. done.
Qed.

Lemma Delete_modest c key b c' :
  consistent c → modest c → Delete key c = Ok (b, c') →
  consistent c' ∧ modest c'.
Proof.
  intros Hc Hm. unfold Delete.
  destruct (lru_table c !! key) as [p|] eqn:Hk; [|by intros [= <- <-]].
  destruct (consistent_lookup c key p Hc Hk) as (e & [Hp He] & Hkey & _).
  unfold deref. rewrite He. simpl. intros [= <- <-].
  pose proof (consistent_remove c p e Hc Hp He) as Hc'. rewrite Hkey in Hc'.
  destruct Hm as ([Hpos Hsz] & Hle & Hcap).
  assert (Htot : total c = entry_size e
                           + total_of (lru_heap c) (list_Remove p (lru_list c))).
  { unfold total. rewrite (total_of_Remove _ _ p) by (done || apply Hc).
    unfold size_at. by rewrite He. }
  assert (0 ≤ entry_size e) by by apply (Hpos p).
  assert (Hex' : exact (mkLRU (list_Remove p (lru_list c))
                          (delete key (lru_table c))
                          (uint64_sub (lru_size c) (uint64 (entry_size e)))
                          (lru_capacity c) (lru_heap c) (lru_next c))).
  { apply exact_intro; [done| |].
    - intros q e' [[Hq _]%elem_of_list_Remove He']. by apply (Hpos q).
    - unfold total. simpl.
      pose proof (consistent_size_range c Hc) as [_ Hlt]. lia. }
  split; [done|]. split_and!; [done| |done].
  rewrite (proj2 Hex'). unfold total. simpl. lia.
Qed.

End Theory.

Section PersistenceTheory.
Context {V : Type} `{!Value V} {Stream : Type} `{!Gob V Stream}.
Implicit Types (c : LRUCache V) (e : entry V) (p q : nat).

Lemma loadItem_spec c item now :
  consistent c →
  ∃ c', loadItem item now c = Ok c' ∧ consistent c' ∧
        lru_capacity c' = lru_capacity c.
Proof.
  intros Hc. unfold loadItem.
  destruct (lru_table c !! item_Key item) as [p|] eqn:Hk.
  - destruct (consistent_lookup c _ p Hc Hk) as (e & Hpe & _).
    destruct (updateInplace_spec c p e (item_Value item) now Hc Hpe)
      as (c' & ? & ? & ? & ?).
    by exists c'.
  - destruct (addNew_spec c (item_Key item) (item_Value item) now Hc Hk)
      as (c' & ? & ? & ? & ? & ? & ? & ?).
    by exists c'.
Qed.

Lemma loadLoop_spec items clock c :
  consistent c →
  ∃ c', loadLoop items clock c = Ok c' ∧ consistent c' ∧
        lru_capacity c' = lru_capacity c.
Proof.
  revert clock c. induction items as [|item items IH]; intros clock c Hc.
  - by exists c.
  - simpl. destruct (loadItem_spec c item (clock O) Hc) as (c1 & -> & Hc1 & Hcap1).
    simpl. destruct (IH (λ i, clock (S i)) c1 Hc1) as (c' & ? & ? & ?).
    exists c'. split_and!; try done. congruence.
Qed.

Lemma LoadItems_spec r clock c :
  consistent c →
  ∃ err c', LoadItems r clock c = Ok (err, c') ∧ consistent c'.
Proof.
  intros Hc. unfold LoadItems. destruct (gob_Decode r) as [items|err].
  - destruct (loadLoop_spec items clock c Hc) as (c' & -> & Hc' & _).
    by exists None, c'.
  - by exists (Some err), c.
Qed.

Lemma run_op_spec (o : op V Stream) c :
  consistent c → op_typed o →
  ∃ c', run_op o c = Ok c' ∧ consistent c'.
Proof.
  intros Hc Ho. destruct o as [key now|key value now|key value now|key|
                               |capacity|r clock]; simpl.
  - destruct (Get_Ok c key now Hc) as [[v c'] Hget]. rewrite Hget.
    exists c'. split; [done|]. by eapply Get_consistent.
  - by apply Set_spec.
  - by apply SetIfAbsent_spec.
  - destruct (Delete_spec c key Hc) as (b & c' & -> & Hc'). by exists c'.
  - exists (Clear c). split; [done|]. by apply consistent_Clear.
  - destruct (SetCapacity_spec c capacity Hc Ho) as (c' & ? & ? & _).
    by exists c'.
  - destruct (LoadItems_spec r clock c Hc) as (err & c' & -> & Hc').
    by exists c'.
Qed.

Lemma run_ops_spec (ops : list (op V Stream)) c :
  consistent c → Forall op_typed ops →
  ∃ c', run_ops ops c = Ok c' ∧ consistent c'.
Proof.
  intros Hc Hops. revert c Hc.
  induction Hops as [|o ops Ho _ IH]; intros c Hc; [by exists c|].
  simpl. destruct (run_op_spec o c Hc Ho) as (c1 & -> & Hc1).
  simpl. by apply IH.
Qed.

Lemma reachable_consistent c : reachable (Stream:=Stream) c → consistent c.
Proof.
  intros (capacity & ops & Hcap & Hops & Hrun).
  destruct (run_ops_spec ops _ (consistent_NewLRUCache capacity Hcap) Hops)
    as (c' & Hrun' & Hc').
  congruence.
Qed.

(** ** Loading items that are new and fit *)

Lemma loadLoop_fresh items clock c :
  consistent c → exact c →
  NoDup (item_Key <$> items) →
  (∀ item, item ∈ items → lru_table c !! item_Key item = None) →
  (∀ item, item ∈ items → 0 ≤ Size (item_Value item)) →
  lru_size c + sum_sizes items ≤ lru_capacity c →
  ∃ c', loadLoop items clock c = Ok c' ∧ consistent c' ∧ exact c' ∧
        lru_capacity c' = lru_capacity c ∧
        entry_item <$> entries c' = rev items ++ (entry_item <$> entries c).
Proof.
  revert clock c.
  induction items as [|item items IH]; intros clock c Hc Hex Hnd Hnew Hpos Hfit.
  { exists c. by split_and!. }
  apply NoDup_cons in Hnd as [Hitem Hnd].
  assert (Hv : 0 ≤ Size (item_Value item)) by (apply Hpos; by left).
  assert (Hk : lru_table c !! item_Key item = None) by (apply Hnew; by left).
  assert (Hrest : 0 ≤ sum_sizes items)
    by (apply sum_sizes_nonneg; intros; apply Hpos; by right).
  change (sum_sizes (item :: items))
    with (Size (item_Value item) + sum_sizes items) in Hfit.
  destruct (addNew_fits_spec c (item_Key item) (item_Value item) (clock O)
              Hc Hex Hk Hv)
    as (c1 & Hadd & Hc1 & Hex1 & Hent1 & Htab1 & Hsz1 & Hcap1); [lia|].
  destruct (IH (λ i, clock (S i)) c1 Hc1 Hex1 Hnd)
    as (c' & Hrun & Hc' & Hex' & Hcap' & Hent').
  - intros item' Hin. rewrite Htab1.
    rewrite lookup_insert_ne; [apply Hnew; by right|].
    intros Heq. apply Hitem. rewrite Heq.
    apply list_elem_of_fmap. by exists item'.
  - intros item' Hin. apply Hpos. by right.
  - lia.
  - exists c'. split_and!; try done.
    + simpl. unfold loadItem. by rewrite Hk, Hadd.
    + congruence.
    + rewrite Hent', Hent1. simpl. rewrite <- app_assoc. simpl.
      by destruct item.
Qed.

(** ** Sequences that keep the accounted size exact *)

Lemma modest_NewLRUCache capacity :
  is_uint64 capacity → capacity ≤ 2 ^ 63 →
  modest (NewLRUCache (V:=V) capacity).
Proof.
  intros [Hcap _] Hle. split_and!; [apply exact_NewLRUCache|done|done].
Qed.

Lemma run_op_modest (o : op V Stream) c :
  consistent c → modest c → op_typed o → op_modest o →
  ∃ c', run_op o c = Ok c' ∧ consistent c' ∧ modest c'.
Proof.
  intros Hc Hm Ho Hmo.
  destruct o as [key now|key value now|key value now|key|
                |capacity|r clock]; simpl in *.
  - destruct (Get_Ok c key now Hc) as [[v c'] Hget]. rewrite Hget.
    exists c'. split; [done|].
    split; [by eapply Get_consistent|].
    unfold Get in Hget.
    destruct (lru_table c !! key) as [p|] eqn:Hk;
      [|by injection Hget as _ <-].
    destruct (consistent_lookup c key p Hc Hk) as (e & Hpe & _).
    destruct (moveToFront p now c) as [c1| |] eqn:Hmv; simpl in Hget; try done.
    destruct (deref c1 p); simpl in Hget; try done. injection Hget as _ <-.
    destruct Hm as (Hex & Hle & Hcap).
    destruct (moveToFront_exact c p e now c1 Hc Hex Hpe Hmv)
      as (Hex1 & Hsz1 & Hcap1).
    unfold modest. rewrite Hsz1, Hcap1. by split_and!.
  - unfold Set_. destruct (lru_table c !! key) as [p|] eqn:Hk.
    + destruct (consistent_lookup c key p Hc Hk) as (e & Hpe & _).
      destruct (moveToFront p now c) as [c1| |] eqn:Hmv;
        [|by rewrite (moveToFront_Ok c p e now (proj2 Hpe)) in Hmv..].
      exists c1. split; [done|].
      split; [by eapply moveToFront_consistent|].
      destruct Hm as (Hex & Hle & Hcap).
      destruct (moveToFront_exact c p e now c1 Hc Hex Hpe Hmv)
        as (Hex1 & Hsz1 & Hcap1).
      unfold modest. rewrite Hsz1, Hcap1. by split_and!.
    + by apply addNew_modest.
  - unfold SetIfAbsent. destruct (lru_table c !! key) as [p|] eqn:Hk.
    + by exists c.
    + by apply addNew_modest.
  - destruct (Delete_spec c key Hc) as (b & c' & Hdel & _). rewrite Hdel.
    exists c'. split; [done|]. by eapply Delete_modest.
  - exists (Clear c). split; [done|]. split; [by apply consistent_Clear|].
    destruct Hm as (_ & _ & Hcap).
    pose proof (cons_capacity c Hc) as [Hcap0 _].
    split_and!; try done. split; [|done].
    intros p e [Hp _]. by apply elem_of_nil in Hp.
  - unfold SetCapacity. destruct Hm as (Hex & _ & _).
    apply checkCapacity_modest; [by apply consistent_capacity|done|done].
  - unfold LoadItems. destruct (gob_Decode r) as [items|err] eqn:Hdec;
      [|by exists c].
    specialize (Hmo items eq_refl).
    assert (Hloop : ∃ c', loadLoop items clock c = Ok c' ∧ consistent c'
                          ∧ modest c').
    { clear Hdec. revert clock c Hc Hm.
      induction items as [|item items IH]; intros clock c Hc Hm;
        [by exists c|].
      assert (Hitem : ∃ c1, loadItem item (clock O) c = Ok c1 ∧ consistent c1
                            ∧ modest c1).
      { unfold loadItem.
        destruct (lru_table c !! item_Key item) as [p|] eqn:Hk.
        - destruct (consistent_lookup c _ p Hc Hk) as (e & Hpe & _).
          apply (updateInplace_modest c p e); try done. apply Hmo. by left.
        - apply addNew_modest; try done. apply Hmo. by left. }
      destruct Hitem as (c1 & Hitem & Hc1 & Hm1).
      destruct (IH (λ item' Hin, Hmo item' (list_elem_of_further _ _ _ Hin))
                  (λ i, clock (S i)) c1 Hc1 Hm1) as (c' & Hrun & Hc' & Hm').
      exists c'. simpl. rewrite Hitem. simpl. by split_and!. }
    destruct Hloop as (c' & -> & Hc' & Hm'). by exists c'.
Qed.

(** With capacities of at most [2^63] and sizes that are not negative, the
    accounted size never wraps around: it is the sum of the cached sizes,
    and it is within capacity. *)
Lemma run_ops_modest (ops : list (op V Stream)) c :
  consistent c → modest c → Forall op_typed ops → Forall op_modest ops →
  ∃ c', run_ops ops c = Ok c' ∧ consistent c' ∧ exact c' ∧
        lru_size c' ≤ lru_capacity c'.
Proof.
  intros Hc Hm Hops. revert c Hc Hm.
  induction Hops as [|o ops Ho _ IH]; intros c Hc Hm Hmo.
  - exists c. destruct Hm as (? & ? & ?). by split_and!.
  - apply Forall_cons in Hmo as [Hmo Hmos].
    destruct (run_op_modest o c Hc Hm Ho Hmo) as (c1 & Hrun & Hc1 & Hm1).
    simpl. rewrite Hrun. simpl. by apply IH.
Qed.

End PersistenceTheory.

(** * The statements of the specification *)

Lemma sample_state_reachable : reachable (Stream:=SampleStream) sample_state.
Proof.
  exists 2, sample_ops. split_and!.
  - unfold is_uint64, uint64_modulus. lia.
  - repeat constructor.
  - vm_compute. reflexivity.
Qed.

Lemma shrunk_state_consistent : consistent shrunk_state.
Proof.
  apply (consistent_capacity sample_state 1).
  - apply (reachable_consistent (Stream:=SampleStream)).
    exact sample_state_reachable.
  - unfold is_uint64, uint64_modulus. lia.
Qed.

Lemma oversized_state_consistent : consistent oversized_state.
Proof.
  exact (consistent_push (NewLRUCache 5) "A" (mkBlob "A" 10) 1
           (consistent_NewLRUCache 5 ltac:(unfold is_uint64, uint64_modulus; lia))
           eq_refl).
Qed.

Lemma oversized_state_exact : exact oversized_state.
Proof.
  split; [|reflexivity].
  intros p e [Hp He]. simpl in Hp. apply list_elem_of_singleton in Hp as ->.
  simpl in He. rewrite lookup_insert_eq in He. injection He as <-.
  simpl. lia.
Qed.

(** ** Eviction *)

(** C9: from every consistent state (the structures agree and the accounted
    size is the 64-bit sum of the cached sizes; in particular when the sizes
    are non-negative and the accounted size is their sum), the eviction loop
    ends after as many turns as it has taken elements, [gone], off the back
    of the list, at most the length of the list; it ends normally, so that
    it has never asked an empty list for its back element. *)
Theorem eviction_terminates {V} `{!Value V} (c : LRUCache V) :
  consistent c →
  ∃ c' gone,
    lru_list c = lru_list c' ++ gone ∧
    (length gone ≤ length (lru_list c))%nat ∧
    (∀ fuel, (length gone ≤ fuel)%nat → checkCapacity_loop fuel c = Ok c') ∧
    checkCapacity c = Ok c' ∧
    checkCapacity c ≠ Panic NilDereference.
Proof.
  intros Hc.
  destruct (checkCapacity_spec c Hc)
    as (c' & gone & Hrun & _ & _ & Hlist & _ & _ & _ & Hfuel & _).
  exists c', gone. split_and!; try done.
  - rewrite Hlist, length_app. lia.
  - by rewrite Hrun.
Qed.

Lemma eviction_terminates_witness :
  consistent shrunk_state ∧
  ∃ c' gone,
    lru_list shrunk_state = lru_list c' ++ gone ∧
    (length gone ≤ length (lru_list shrunk_state))%nat ∧
    (∀ fuel, (length gone ≤ fuel)%nat →
             checkCapacity_loop fuel shrunk_state = Ok c') ∧
    checkCapacity shrunk_state = Ok c' ∧
    checkCapacity shrunk_state ≠ Panic NilDereference.
Proof.
  split.
  - exact shrunk_state_consistent.
  - apply (eviction_terminates shrunk_state). exact shrunk_state_consistent.
Defined.

(** C1, as the specification has it, fails: the loop has no test for an empty
    list, and an entry larger than the capacity is evicted like any other.
    [Set "A"] of a payload of size 10 on a fresh cache of capacity 5 runs
    the loop on [oversized_state] and leaves the cache empty. *)
Lemma oversized_entry_is_evicted :
  Set_ "A" (mkBlob "A" 10) 1 (NewLRUCache 5) = checkCapacity oversized_state ∧
  present oversized_state 0%nat oversized_entry ∧
  lru_capacity oversized_state < entry_size oversized_entry ∧
  ∃ c', checkCapacity oversized_state = Ok c' ∧
        ¬ (0%nat ∈ lru_list c') ∧ lru_table c' !! "A" = None ∧
        ¬ (lru_capacity c' < lru_size c').
Proof.
  split_and!.
  - reflexivity.
  - split; [by left|reflexivity].
  - simpl. lia.
  - eexists. split; [vm_compute; reflexivity|]. split_and!.
    + simpl. apply not_elem_of_nil.
    + reflexivity.
    + simpl. lia.
Qed.

(** C1, amended: from a consistent state whose accounted size is the exact
    sum of non-negative cached sizes, eviction takes entries off the back of
    the list, as few as bring the accounted size within the capacity (with
    any of them still in the list the sum of the cached sizes exceeds the
    capacity), and ends within capacity; an entry whose cached size alone
    exceeds the capacity is among the entries taken: it is in neither the
    list nor the index afterwards. *)
Theorem eviction_drops_oversized {V} `{!Value V} (c : LRUCache V) :
  consistent c → exact c →
  ∃ c' gone,
    checkCapacity c = Ok c' ∧
    lru_list c = lru_list c' ++ gone ∧
    lru_size c' ≤ lru_capacity c ∧
    (∀ i, (i < length gone)%nat →
          lru_capacity c <
            total_of (lru_heap c) (lru_list c' ++ take (S i) gone)) ∧
    ∀ p e, present c p e → lru_capacity c < entry_size e →
           p ∈ gone ∧ (p ∉ lru_list c') ∧ lru_table c' !! entry_key e = None.
Proof.
  intros Hc Hex.
  destruct (checkCapacity_spec c Hc)
    as (c' & gone & Hrun & Hc' & Hle & Hlist & Hheap & Hcap & _ & _ & Hforced).
  destruct (exact_prefix c c' gone Hc Hc' Hex Hlist Hheap) as [[Hpos' Hsz'] _].
  pose proof (exact_total_range c Hc Hex) as Hrange.
  exists c', gone. split_and!; try done; [congruence| |].
  - intros i Hi. specialize (Hforced i Hi).
    rewrite uint64_small in Hforced; [done|].
    assert (Hsplit : total c
              = total_of (lru_heap c) (lru_list c' ++ take (S i) gone)
                + total_of (lru_heap c) (drop (S i) gone)).
    { unfold total. rewrite Hlist at 1.
      rewrite <- (take_drop (S i) gone) at 1.
      by rewrite app_assoc, total_of_app. }
    assert (Hin : ∀ l q, q ∈ l → l ⊆ lru_list c → ∀ e,
                lru_heap c !! q = Some e → 0 ≤ entry_size e).
    { intros l q Hq Hl e He. apply (proj1 Hex q). split; [by apply Hl|done]. }
    assert (0 ≤ total_of (lru_heap c) (drop (S i) gone)).
    { apply total_of_nonneg. intros q e Hq He.
      apply (Hin (drop (S i) gone) q Hq); [|done].
      intros x Hx. rewrite Hlist. apply elem_of_app. right.
      rewrite <- (take_drop (S i) gone). apply elem_of_app. by right. }
    assert (0 ≤ total_of (lru_heap c) (lru_list c' ++ take (S i) gone)).
    { apply total_of_nonneg. intros q e Hq He.
      apply (Hin (lru_list c' ++ take (S i) gone) q Hq); [|done].
      intros x Hx. rewrite Hlist.
      apply elem_of_app in Hx as [Hx|Hx]; apply elem_of_app; [by left|right].
      rewrite <- (take_drop (S i) gone). apply elem_of_app. by left. }
    unfold is_uint64 in *. lia.
  - intros p e [Hp He] Hbig.
    assert (Hout : p ∉ lru_list c').
    { intros Hin.
      assert (entry_size e ≤ total c'); [|lia].
      apply (total_of_elem_le _ _ p); [|done|congruence].
      intros q e' Hq He'. by apply (Hpos' q). }
    split_and!; [|done|].
    + rewrite Hlist in Hp. apply elem_of_app in Hp as [Hp|Hp]; done.
    + destruct (lru_table c' !! entry_key e) as [q|] eqn:Hk; [|done].
      exfalso. apply (cons_table c' Hc') in Hk as (Hq & e' & He' & Hkey).
      assert (q = p); [|by subst].
      apply (consistent_key_inj c q p e' e); try done.
      split; [|congruence]. rewrite Hlist. apply elem_of_app. by left.
Qed.

Lemma eviction_drops_oversized_witness :
  consistent oversized_state ∧ exact oversized_state ∧
  ∃ c' gone,
    checkCapacity oversized_state = Ok c' ∧
    lru_list oversized_state = lru_list c' ++ gone ∧
    lru_size c' ≤ lru_capacity oversized_state ∧
    (∀ i, (i < length gone)%nat →
          lru_capacity oversized_state <
            total_of (lru_heap oversized_state)
              (lru_list c' ++ take (S i) gone)) ∧
    ∀ p e, present oversized_state p e →
           lru_capacity oversized_state < entry_size e →
           p ∈ gone ∧ (p ∉ lru_list c') ∧ lru_table c' !! entry_key e = None.
Proof.
  split_and!.
  - exact oversized_state_consistent.
  - exact oversized_state_exact.
  - apply (eviction_drops_oversized oversized_state).
    + exact oversized_state_consistent.
    + exact oversized_state_exact.
Defined.

(** ** The invariant *)




(** ** The public operations *)

(** C2: in every state of a cache, [Set] on a key of the index moves the
    element of that key to the front of the list and stamps its entry with
    the time of the call; the key, the stored value and the cached size of
    the entry, the accounted size, the index, the capacity and every other
    entry are as before, whatever the size of the value passed. On a key that
    is not in the index, [Set] puts a new entry, whose cached size is
    [Size value], behind a new element at the front, adds that size to the
    accounted size and runs the eviction loop, which ends normally. *)
Theorem Set_touches_or_inserts
    {V} `{!Value V} {Stream} `{!Gob V Stream}
    (c : LRUCache V) (key : string) (value : V) (now : Time) :
  reachable (Stream:=Stream) c →
  (∀ p, lru_table c !! key = Some p →
        ∃ e, present c p e ∧ entry_key e = key ∧
             Set_ key value now c =
               Ok (mkLRU (p :: list_Remove p (lru_list c)) (lru_table c)
                     (lru_size c) (lru_capacity c)
                     (<[p := mkEntry key (entry_value e) (entry_size e) now]>
                        (lru_heap c))
                     (lru_next c))) ∧
  (lru_table c !! key = None →
     Set_ key value now c =
       checkCapacity
         (mkLRU (lru_next c :: lru_list c)
            (<[key := lru_next c]> (lru_table c))
            (uint64_add (lru_size c) (uint64 (Size value)))
            (lru_capacity c)
            (<[lru_next c := mkEntry key value (Size value) now]>
               (lru_heap c))
            (S (lru_next c))) ∧
     is_Ok (Set_ key value now c)).
Proof.
  intros Hc%reachable_consistent. split.
  - intros p Hk.
    destruct (consistent_lookup c key p Hc Hk) as (e & [Hp He] & Hkey & _).
    exists e. split_and!; try done.
    unfold Set_. rewrite Hk, (moveToFront_Ok c p e now He), Hkey.
    unfold list_MoveToFront. by rewrite decide_True.
  - intros Hk. split.
    + unfold Set_. by rewrite Hk.
    + destruct (Set_spec c key value now Hc) as (c' & Hset & _).
      by exists c'.
Qed.

Lemma Set_touches_or_inserts_witness :
  reachable (Stream:=SampleStream) sample_state ∧
  (∀ p, lru_table sample_state !! "A" = Some p →
        ∃ e, present sample_state p e ∧ entry_key e = "A" ∧
             Set_ "A" (mkBlob "z" 7) 9 sample_state =
               Ok (mkLRU (p :: list_Remove p (lru_list sample_state))
                     (lru_table sample_state)
                     (lru_size sample_state) (lru_capacity sample_state)
                     (<[p := mkEntry "A" (entry_value e) (entry_size e) 9]>
                        (lru_heap sample_state))
                     (lru_next sample_state))) ∧
  (lru_table sample_state !! "A" = None →
     Set_ "A" (mkBlob "z" 7) 9 sample_state =
       checkCapacity
         (mkLRU (lru_next sample_state :: lru_list sample_state)
            (<["A" := lru_next sample_state]> (lru_table sample_state))
            (uint64_add (lru_size sample_state) (uint64 (Size (mkBlob "z" 7))))
            (lru_capacity sample_state)
            (<[lru_next sample_state := mkEntry "A" (mkBlob "z" 7)
                                          (Size (mkBlob "z" 7)) 9]>
               (lru_heap sample_state))
            (S (lru_next sample_state))) ∧
     is_Ok (Set_ "A" (mkBlob "z" 7) 9 sample_state)).
Proof.
  split.
  - exact sample_state_reachable.
  - exact (Set_touches_or_inserts sample_state "A" (mkBlob "z" 7) 9
             sample_state_reachable).
Defined.

(** C7: [SetIfAbsent] on a key of the index returns the state it was given:
    list, index, heap (so values and time stamps), accounted size and
    capacity are all as before. *)
Theorem SetIfAbsent_present_is_noop {V} `{!Value V}
    (c : LRUCache V) (k : string) (v2 : V) (now : Time) (p : nat) :
  lru_table c !! k = Some p →
  SetIfAbsent k v2 now c = Ok c.
Proof. intros Hk. unfold SetIfAbsent. by rewrite Hk. Qed.

Lemma SetIfAbsent_present_is_noop_witness :
  lru_table sample_state !! "A" = Some 0%nat ∧
  SetIfAbsent "A" (mkBlob "z" 7) 9 sample_state = Ok sample_state.
Proof.
  split.
  - reflexivity.
  - apply (SetIfAbsent_present_is_noop sample_state "A" (mkBlob "z" 7) 9 0%nat).
    reflexivity.
Defined.

(** C8: in every state of a cache, [Delete] on a key that is not in the
    index returns [false] and the state it was given, so that [Stats]
    answers as before; on a key of the index it returns [true], the element
    of the key has left the list, the key has left the index, and the
    accounted size is less the cached size of the entry (in 64-bit
    arithmetic: exactly less whenever the cached size is between 0 and the
    accounted size). *)
Theorem Delete_absent_or_present
    {V} `{!Value V} {Stream} `{!Gob V Stream}
    (c : LRUCache V) (key : string) :
  reachable (Stream:=Stream) c →
  (lru_table c !! key = None →
     Delete key c = Ok (false, c) ∧
     ∀ b c', Delete key c = Ok (b, c') → Stats c' = Stats c) ∧
  (∀ p, lru_table c !! key = Some p →
        ∃ e c', present c p e ∧ entry_key e = key ∧
                Delete key c = Ok (true, c') ∧
                lru_list c' = list_Remove p (lru_list c) ∧
                (p ∉ lru_list c') ∧
                lru_table c' = delete key (lru_table c) ∧
                lru_table c' !! key = None ∧
                lru_size c' = uint64_sub (lru_size c) (uint64 (entry_size e)) ∧
                (0 ≤ entry_size e ≤ lru_size c →
                 lru_size c' = lru_size c - entry_size e) ∧
                lru_capacity c' = lru_capacity c).
Proof.
  intros Hc%reachable_consistent. split.
  - intros Hk. unfold Delete. rewrite Hk. split; [done|].
    by intros b c' [= <- <-].
  - intros p Hk.
    destruct (consistent_lookup c key p Hc Hk) as (e & [Hp He] & Hkey & _).
    exists e,
      (mkLRU (list_Remove p (lru_list c)) (delete key (lru_table c))
         (uint64_sub (lru_size c) (uint64 (entry_size e)))
         (lru_capacity c) (lru_heap c) (lru_next c)).
    split_and!; try done.
    + unfold Delete, deref. rewrite Hk, He. reflexivity.
    + simpl. rewrite elem_of_list_Remove. tauto.
    + simpl. apply lookup_delete_eq.
    + simpl. intros Hrange.
      pose proof (consistent_size_range c Hc) as Hsz.
      unfold uint64_sub, is_uint64 in *.
      rewrite (uint64_small (entry_size e)) by (unfold is_uint64; lia).
      apply uint64_small. unfold is_uint64. lia.
Qed.

Lemma Delete_absent_or_present_witness :
  reachable (Stream:=SampleStream) sample_state ∧
  (lru_table sample_state !! "B" = None →
     Delete "B" sample_state = Ok (false, sample_state) ∧
     ∀ b c', Delete "B" sample_state = Ok (b, c') →
             Stats c' = Stats sample_state) ∧
  (∀ p, lru_table sample_state !! "B" = Some p →
        ∃ e c', present sample_state p e ∧ entry_key e = "B" ∧
                Delete "B" sample_state = Ok (true, c') ∧
                lru_list c' = list_Remove p (lru_list sample_state) ∧
                (p ∉ lru_list c') ∧
                lru_table c' = delete "B" (lru_table sample_state) ∧
                lru_table c' !! "B" = None ∧
                lru_size c' =
                  uint64_sub (lru_size sample_state) (uint64 (entry_size e)) ∧
                (0 ≤ entry_size e ≤ lru_size sample_state →
                 lru_size c' = lru_size sample_state - entry_size e) ∧
                lru_capacity c' = lru_capacity sample_state).
Proof.
  split.
  - exact sample_state_reachable.
  - exact (Delete_absent_or_present sample_state "B" sample_state_reachable).
Defined.

Ltac walk_keys :=
  unfold Keys; simpl; unfold deref; simpl;
  repeat (first [rewrite lookup_insert_eq
                |rewrite lookup_insert_ne by done]; simpl);
  reflexivity.

(** C5: on a fresh cache whose capacity holds the entries of A and B
    together, and those of A and C together, but not all three, inserting A,
    then B, then reading A, then inserting C evicts B: the keys are then C
    and A, front first, and B is not in the index. *)
Theorem lru_evicts_least_recently_used {V} `{!Value V}
    (capacity : Z) (a b k : string) (va vb vk : V) (t1 t2 t3 t4 : Time) :
  a ≠ b → a ≠ k → b ≠ k →
  0 ≤ Size va → 0 ≤ Size vb → 0 ≤ Size vk →
  Size va + Size vb ≤ capacity →
  Size va + Size vk ≤ capacity →
  capacity < Size va + Size vb + Size vk < uint64_modulus →
  ∃ s1 s2 s3 s4,
    Set_ a va t1 (NewLRUCache capacity) = Ok s1 ∧
    Set_ b vb t2 s1 = Ok s2 ∧
    Keys s2 = Ok [b; a] ∧
    Get a t3 s2 = Ok (Some va, s3) ∧
    Keys s3 = Ok [a; b] ∧
    Set_ k vk t4 s3 = Ok s4 ∧
    Keys s4 = Ok [k; a] ∧
    lru_table s4 !! b = None ∧
    is_Some (lru_table s4 !! a) ∧ is_Some (lru_table s4 !! k).
Proof.
  intros Hab Hak Hbk Ha Hb Hk Hfit2 Hfit1 [Hover Hwrap].
  set (s0 := NewLRUCache (V:=V) capacity).
  assert (Hs1 : Set_ a va t1 s0 = addNew a va t1 s0) by done.
  rewrite addNew_fits in Hs1 by (simpl; lia).
  simpl in Hs1.
  match type of Hs1 with _ = Ok ?s => set (s1 := s) in * end.
  assert (Hs2 : Set_ b vb t2 s1 = addNew b vb t2 s1).
  { unfold Set_. simpl. by rewrite lookup_insert_ne, lookup_empty. }
  rewrite addNew_fits in Hs2 by (simpl; lia).
  simpl in Hs2.
  match type of Hs2 with _ = Ok ?s => set (s2 := s) in * end.
  assert (Hs3 : ∃ s3, Get a t3 s2 = Ok (Some va, s3) ∧
     s3 = mkLRU [0%nat; 1%nat] (lru_table s2) (lru_size s2) capacity
            (<[0%nat := mkEntry a va (Size va) t3]> (lru_heap s2)) 2%nat).
  { eexists. split; [|reflexivity]. unfold Get. simpl.
    rewrite lookup_insert_ne, lookup_insert_eq by done.
    unfold moveToFront, deref. simpl.
    rewrite lookup_insert_ne, lookup_insert_eq by done. simpl.
    rewrite lookup_insert_eq. simpl. reflexivity. }
  destruct Hs3 as (s3 & Hs3 & Hs3eq).
  assert (Hs4 : ∃ s4, Set_ k vk t4 s3 = Ok s4 ∧
     s4 = mkLRU [2%nat; 0%nat] (delete b (<[k := 2%nat]> (lru_table s3)))
            (Size va + Size vk) capacity
            (<[2%nat := mkEntry k vk (Size vk) t4]> (lru_heap s3)) 3%nat).
  { eexists. split; [|reflexivity]. subst s3. unfold Set_. simpl.
    rewrite !lookup_insert_ne, lookup_empty by done.
    unfold addNew, checkCapacity. simpl.
    assert (Hsz : uint64_add (0 + Size va + Size vb) (uint64 (Size vk))
                  = Size va + Size vb + Size vk).
    { unfold uint64_add. rewrite (uint64_small (Size vk))
        by (unfold is_uint64; lia).
      rewrite Z.add_0_l. apply uint64_small. unfold is_uint64. lia. }
    rewrite Hsz. rewrite bool_decide_eq_true_2 by done.
    unfold evict, deref. simpl.
    rewrite lookup_insert_ne, lookup_insert_ne, lookup_insert_eq by done.
    simpl.
    assert (Hsz' : uint64_sub (Size va + Size vb + Size vk) (uint64 (Size vb))
                   = Size va + Size vk).
    { unfold uint64_sub. rewrite (uint64_small (Size vb))
        by (unfold is_uint64; lia).
      replace (Size va + Size vb + Size vk - Size vb)
        with (Size va + Size vk) by lia.
      apply uint64_small. unfold is_uint64. lia. }
    rewrite Hsz'. rewrite bool_decide_eq_false_2 by lia. reflexivity. }
  destruct Hs4 as (s4 & Hs4 & Hs4eq).
  exists s1, s2, s3, s4. subst s3 s4.
  split_and!; [done|done|walk_keys|done|walk_keys|done|walk_keys|..].
  - simpl. apply lookup_delete_eq.
  - simpl. exists 0%nat.
    rewrite lookup_delete_ne, !lookup_insert_ne, lookup_insert_eq by done.
    reflexivity.
  - simpl. exists 2%nat.
    rewrite lookup_delete_ne, lookup_insert_eq by done. reflexivity.
Qed.

Lemma lru_evicts_least_recently_used_witness :
  ∃ s1 s2 s3 s4,
    Set_ "A" (mkBlob "a" 1) 1 (NewLRUCache 2) = Ok s1 ∧
    Set_ "B" (mkBlob "b" 1) 2 s1 = Ok s2 ∧
    Keys s2 = Ok ["B"; "A"]%string ∧
    Get "A" 3 s2 = Ok (Some (mkBlob "a" 1), s3) ∧
    Keys s3 = Ok ["A"; "B"]%string ∧
    Set_ "C" (mkBlob "c" 1) 4 s3 = Ok s4 ∧
    Keys s4 = Ok ["C"; "A"]%string ∧
    lru_table s4 !! "B" = None ∧
    is_Some (lru_table s4 !! "A") ∧ is_Some (lru_table s4 !! "C").
Proof.
  apply (lru_evicts_least_recently_used 2 "A" "B" "C"
           (mkBlob "a" 1) (mkBlob "b" 1) (mkBlob "c" 1) 1 2 3 4).
  - discriminate.
  - discriminate.
  - discriminate.
  - vm_compute. discriminate.
  - vm_compute. discriminate.
  - vm_compute. discriminate.
  - vm_compute. discriminate.
  - vm_compute. discriminate.
  - split; vm_compute; reflexivity.
Defined.

(** ** Persistence *)

Lemma sampleDecode_encode {V} (items : list (Item V)) :
  sampleDecode (Some <$> items) = inl items.
Proof.
  induction items as [|item items IH]; [done|].
  rewrite fmap_cons.
  change (match sampleDecode (Some <$> items) with
          | inl items' => inl (item :: items')
          | inr err => inr err
          end = inl (B:=error) (item :: items)).
  by rewrite IH.
Qed.

Lemma sample_Gob_round_trip {V} (items : list (Item V)) s :
  gob_Encode (Stream:=list (option (Item V))) items = inl s →
  gob_Decode s = inl items.
Proof. simpl. intros [= <-]. apply sampleDecode_encode. Qed.

(** C3, as the specification has it, fails: [LoadItems] decodes the whole
    slice before it takes the lock, and returns the decoding error before it
    has applied any item. No payload type, decoder, stream and cache are
    such that [LoadItems] returns an error and a cache that differs from the
    one it was given; on the sample format, a stream with a good frame
    before a damaged one leaves a fresh cache empty. *)
Lemma failed_load_changes_nothing :
  (¬ ∃ (V : Type) (HV : Value V) (Stream : Type) (G : Gob V Stream)
       (r : Stream) (clock : nat → Time) (c c' : LRUCache V) (err : error),
       LoadItems r clock c = Ok (Some err, c') ∧ c' ≠ c) ∧
  LoadItems damaged_stream sample_clock (NewLRUCache 10)
    = Ok (Some (Error "unexpected EOF"), NewLRUCache 10).
Proof.
  split; [|reflexivity].
  intros (V & HV & Stream & G & r & clock & c & c' & err & Hload & Hne).
  apply Hne. unfold LoadItems in Hload.
  destruct (gob_Decode r) as [items|err'].
  - destruct (loadLoop items clock c); simpl in Hload; discriminate.
  - by injection Hload as _ <-.
Qed.

(** C3, amended: a failed load is all or nothing. When [LoadItems] returns
    an error, that error is the decoder's and the cache is the one it was
    given: no item has been applied. *)
Theorem LoadItems_error_leaves_cache
    {V} `{!Value V} {Stream} `{!Gob V Stream}
    (r : Stream) (clock : nat → Time) (c c' : LRUCache V) (err : error) :
  LoadItems r clock c = Ok (Some err, c') →
  gob_Decode r = inr err ∧ c' = c.
Proof.
  unfold LoadItems. destruct (gob_Decode r) as [items|err'].
  - destruct (loadLoop items clock c); simpl; discriminate.
  - by intros [= <- <-].
Qed.

Lemma LoadItems_error_leaves_cache_witness :
  LoadItems damaged_stream sample_clock sample_state
    = Ok (Some (Error "unexpected EOF"), sample_state) ∧
  gob_Decode damaged_stream = inr (Error "unexpected EOF") ∧
  sample_state = sample_state.
Proof.
  assert (H : LoadItems damaged_stream sample_clock sample_state
              = Ok (Some (Error "unexpected EOF"), sample_state))
    by reflexivity.
  split; [exact H|].
  exact (LoadItems_error_leaves_cache damaged_stream sample_clock
           sample_state sample_state (Error "unexpected EOF") H).
Defined.

(** C6, as the specification has it, fails for the states in which the
    64-bit accounted size has wrapped around. [overflow_state] holds "c", "b"
    and "a" (sizes [2^63 - 1], [2^63 - 1] and 2, capacity [2^63 + 1]); saved
    and loaded into a fresh cache of the same capacity, in the order "c",
    "b", "a", the second insertion brings the accounted size to [2^64 - 2],
    over the capacity, and "c" is evicted: the loaded cache holds "a" and "b"
    only. The stream format of the sample decodes what it encodes. *)
Lemma round_trip_loses_an_entry :
  reachable (Stream:=SampleStream) overflow_state ∧
  (∀ items s, gob_Encode (Stream:=SampleStream) items = inl s →
              gob_Decode s = inl items) ∧
  Keys overflow_state = Ok ["c"; "b"; "a"]%string ∧
  ∃ stream c',
    SaveItems overflow_state = Ok (inl stream) ∧
    LoadItems (stream : SampleStream) sample_clock
      (NewLRUCache (lru_capacity overflow_state)) = Ok (None, c') ∧
    Keys c' = Ok ["a"; "b"]%string ∧
    lru_table c' !! "c" = None.
Proof.
  split_and!.
  - exists overflow_capacity, overflow_ops. split_and!.
    + unfold is_uint64, overflow_capacity, uint64_modulus. lia.
    + repeat constructor.
    + vm_compute. reflexivity.
  - apply sample_Gob_round_trip.
  - vm_compute. reflexivity.
  - eexists _, _. split_and!.
    + vm_compute. reflexivity.
    + vm_compute. reflexivity.
    + vm_compute. reflexivity.
    + vm_compute. reflexivity.
Qed.

(** C6, amended: for every state of a cache whose accounted size is the
    exact sum of its non-negative cached sizes (no wrap-around) and is
    within the capacity, and every stream format that decodes what it
    encodes: if [SaveItems] succeeds, [LoadItems] of the saved stream into a
    fresh cache of the same capacity succeeds and the loaded cache holds the
    same (key, value) pairs, in the reverse order of recency. *)
Theorem save_load_round_trip
    {V} `{!Value V} {Stream} `{!Gob V Stream}
    (c : LRUCache V) (stream : Stream) (clock : nat → Time) :
  (∀ items s, gob_Encode (Stream:=Stream) items = inl s →
              gob_Decode s = inl items) →
  reachable (Stream:=Stream) c → exact c →
  lru_size c ≤ lru_capacity c →
  SaveItems c = Ok (inl stream) →
  ∃ items c',
    Items c = Ok items ∧
    LoadItems stream clock (NewLRUCache (lru_capacity c)) = Ok (None, c') ∧
    Items c' = Ok (rev items) ∧
    rev items ≡ₚ items.
Proof.
  intros Hgob Hc%reachable_consistent Hex Hle Hsave.
  pose proof (consistent_Items c Hc) as Hitems.
  exists (entry_item <$> entries c).
  unfold SaveItems in Hsave. rewrite Hitems in Hsave. simpl in Hsave.
  injection Hsave as Henc. apply Hgob in Henc.
  destruct (loadLoop_fresh (entry_item <$> entries c) clock
              (NewLRUCache (lru_capacity c)))
    as (c' & Hrun & Hc' & _ & _ & Hent).
  - apply consistent_NewLRUCache, Hc.
  - apply exact_NewLRUCache.
  - rewrite <- list_fmap_compose.
    change (NoDup (entry_key <$> entries c)). by apply consistent_NoDup_keys.
  - intros item _. apply lookup_empty.
  - intros item (e & -> & (p & Hp & He)%elem_of_entries)%list_elem_of_fmap.
    simpl. destruct (cons_heap c Hc p Hp) as (e' & He' & Hsize).
    assert (e' = e) as -> by congruence. rewrite <- Hsize.
    apply (proj1 Hex p). by split.
  - simpl. unfold entries. rewrite sum_sizes_entries by apply Hc.
    fold (total c). rewrite <- (proj2 Hex). lia.
  - exists c'. split_and!; try done.
    + unfold LoadItems. by rewrite Henc, Hrun.
    + rewrite (consistent_Items c' Hc'), Hent. simpl.
      by rewrite app_nil_r.
    + apply Permutation_sym, Permutation_rev.
Qed.

Lemma sample_state_exact : exact sample_state.
Proof. apply exactb_exact. vm_compute. reflexivity. Qed.

Lemma save_load_round_trip_witness :
  (∀ items s, gob_Encode (Stream:=SampleStream) items = inl s →
              gob_Decode s = inl items) ∧
  reachable (Stream:=SampleStream) sample_state ∧ exact sample_state ∧
  lru_size sample_state ≤ lru_capacity sample_state ∧
  SaveItems sample_state
    = Ok (inl [Some (mkItem "C" (mkBlob "c" 1));
               Some (mkItem "A" (mkBlob "a" 1))]) ∧
  ∃ items c',
    Items sample_state = Ok items ∧
    LoadItems [Some (mkItem "C" (mkBlob "c" 1));
               Some (mkItem "A" (mkBlob "a" 1))] sample_clock
      (NewLRUCache (lru_capacity sample_state)) = Ok (None, c') ∧
    Items c' = Ok (rev items) ∧
    rev items ≡ₚ items.
Proof.
  assert (Hle : lru_size sample_state ≤ lru_capacity sample_state)
    by (vm_compute; discriminate).
  assert (Hsave : SaveItems sample_state
                  = Ok (inl [Some (mkItem "C" (mkBlob "c" 1));
                             Some (mkItem "A" (mkBlob "a" 1))]))
    by reflexivity.
  split_and!.
  - apply sample_Gob_round_trip.
  - exact sample_state_reachable.
  - exact sample_state_exact.
  - exact Hle.
  - exact Hsave.
  - exact (save_load_round_trip sample_state _ sample_clock
             sample_Gob_round_trip sample_state_reachable sample_state_exact
             Hle Hsave).
Defined.

(** ** Introspection *)

(** C10: on the nil cache [StatsJSON] returns the string [{}] and does not
    fail; on a cache, in any of its states, it returns the four values of
    [Stats] (length, size, capacity, oldest access time) printed in the
    JSON object of its format. *)
Theorem StatsJSON_nil_and_fields
    {V} `{!Value V} {Stream} `{!Gob V Stream} (formatTime : Time → string)
    (c : LRUCache V) :
  reachable (Stream:=Stream) c →
  StatsJSON (V:=V) formatTime None = Ok "{}"%string ∧
  ∃ length size capacity oldest,
    Stats c = Ok (length, size, capacity, oldest) ∧
    (length, size, capacity) =
      (uint64 (Z.of_nat (List.length (lru_list c))), lru_size c,
       lru_capacity c) ∧
    StatsJSON formatTime (Some c) =
      Ok ("{" +:+ dquote +:+ "Length" +:+ dquote +:+ ": " +:+ pretty length
          +:+ ", " +:+ dquote +:+ "Size" +:+ dquote +:+ ": " +:+ pretty size
          +:+ ", " +:+ dquote +:+ "Capacity" +:+ dquote +:+ ": "
          +:+ pretty capacity
          +:+ ", " +:+ dquote +:+ "OldestAccess" +:+ dquote +:+ ": "
          +:+ dquote +:+ formatTime oldest +:+ dquote +:+ "}")%string.
Proof.
  intros Hc%reachable_consistent. split; [done|].
  assert (Hold : ∃ oldest,
             match list_Back (lru_list c) with
             | Some lastElem =>
                 e ← deref c lastElem; Ok (entry_timeAccessed e)
             | None => Ok zeroTime
             end = Ok oldest).
  { destruct (list_Back (lru_list c)) as [p|] eqn:Hback; [|by eexists].
    apply list_Back_Some in Hback as [l' Hl].
    destruct (cons_heap c Hc p) as (e & He & _); [rewrite Hl; set_solver|].
    unfold deref. rewrite He. by eexists. }
  destruct Hold as [oldest Hold].
  exists (uint64 (Z.of_nat (List.length (lru_list c)))), (lru_size c),
    (lru_capacity c), oldest.
  assert (HStats : Stats c = Ok (uint64 (Z.of_nat (List.length (lru_list c))),
                                 lru_size c, lru_capacity c, oldest))
    by (unfold Stats; by rewrite Hold).
  split_and!; [done|done|].
  unfold StatsJSON. by rewrite HStats.
Qed.

Lemma StatsJSON_nil_and_fields_witness :
  reachable (Stream:=SampleStream) sample_state ∧
  StatsJSON (V:=Blob) sample_formatTime None = Ok "{}"%string ∧
  ∃ length size capacity oldest,
    Stats sample_state = Ok (length, size, capacity, oldest) ∧
    (length, size, capacity) =
      (uint64 (Z.of_nat (List.length (lru_list sample_state))),
       lru_size sample_state, lru_capacity sample_state) ∧
    StatsJSON sample_formatTime (Some sample_state) =
      Ok ("{" +:+ dquote +:+ "Length" +:+ dquote +:+ ": " +:+ pretty length
          +:+ ", " +:+ dquote +:+ "Size" +:+ dquote +:+ ": " +:+ pretty size
          +:+ ", " +:+ dquote +:+ "Capacity" +:+ dquote +:+ ": "
          +:+ pretty capacity
          +:+ ", " +:+ dquote +:+ "OldestAccess" +:+ dquote +:+ ": "
          +:+ dquote +:+ sample_formatTime oldest +:+ dquote +:+ "}")%string.
Proof.
  split; [exact sample_state_reachable|].
  exact (StatsJSON_nil_and_fields (Stream:=SampleStream) sample_formatTime
           sample_state sample_state_reachable).
Defined.

(** The same, printed: two entries of size 1 at capacity 2, the older one
    last read at time 3. *)
Example StatsJSON_sample :
  StatsJSON sample_formatTime (Some sample_state) =
    Ok ("{" +:+ dquote +:+ "Length" +:+ dquote +:+ ": 2, "
        +:+ dquote +:+ "Size" +:+ dquote +:+ ": 2, "
        +:+ dquote +:+ "Capacity" +:+ dquote +:+ ": 2, "
        +:+ dquote +:+ "OldestAccess" +:+ dquote +:+ ": "
        +:+ dquote +:+ "3" +:+ dquote +:+ "}")%string.
Proof. vm_compute. reflexivity. Qed.

(** * The operations on the sequence of entries *)

Section ViewTheory.
Context {V : Type} `{!Value V}.
Implicit Types (c : LRUCache V) (h : gmap nat (entry V)) (l : list nat).
Implicit Types (e : entry V) (p q : nat) (es : list (entry V)).

(** ** Looking a key up in the sequence *)

Lemma lookup_key_Some key es e :
  lookup_key key es = Some e → e ∈ es ∧ entry_key e = key.
Proof.
  induction es as [|e' es IH]; [done|]. simpl. case_decide as Hk.
  - intros [= <-]. split; [by left|done].
  - intros [Hin Hkey]%IH. split; [by right|done].
Qed.

Lemma lookup_key_None key es :
  lookup_key key es = None ↔ ∀ e, e ∈ es → entry_key e ≠ key.
Proof.
  induction es as [|e' es IH]; simpl.
  - split; [|done]. intros _ e He. by apply elem_of_nil in He.
  - case_decide as Hk.
    + split; [done|]. intros Hall. exfalso. apply (Hall e'); [by left|done].
    + rewrite IH. split.
      * intros Hall e [->|He]%elem_of_cons; [done|by apply Hall].
      * intros Hall e He. apply Hall. by right.
Qed.

Lemma lookup_key_NoDup es e :
  NoDup (entry_key <$> es) → e ∈ es → lookup_key (entry_key e) es = Some e.
Proof.
  induction es as [|e' es IH]; intros Hnd He; [by apply elem_of_nil in He|].
  rewrite fmap_cons in Hnd. apply NoDup_cons in Hnd as [Hnotin Hnd].
  simpl. case_decide as Hk.
  - apply elem_of_cons in He as [->|He]; [done|].
    exfalso. apply Hnotin. rewrite Hk. apply list_elem_of_fmap. by exists e.
  - apply elem_of_cons in He as [->|He]; [done|]. by apply IH.
Qed.

Lemma lookup_key_not_in key es :
  lookup_key key es = None ↔ key ∉ entry_key <$> es.
Proof.
  rewrite lookup_key_None. split.
  - intros Hall (e & -> & He)%list_elem_of_fmap. by apply (Hall e).
  - intros Hnotin e He Hk. apply Hnotin. apply list_elem_of_fmap.
    by exists e.
Qed.

Lemma without_key_not_in key es :
  key ∉ entry_key <$> es → without_key key es = es.
Proof.
  induction es as [|e es IH]; intros Hk; [done|].
  rewrite fmap_cons in Hk. apply not_elem_of_cons in Hk as [Hne Hk].
  unfold without_key. rewrite filter_cons_True by done.
  f_equal. by apply IH.
Qed.

Lemma lookup_key_without key es : lookup_key key (without_key key es) = None.
Proof.
  apply lookup_key_None. intros e [Hne _]%list_elem_of_filter. done.
Qed.

(** ** The entries behind the list *)

Lemma omap_insert_notin h l p e :
  p ∉ l → omap (λ q, <[p:=e]> h !! q) l = omap (λ q, h !! q) l.
Proof.
  induction l as [|q l IH]; intros Hp; [done|].
  apply not_elem_of_cons in Hp as [Hne Hp]. simpl.
  rewrite lookup_insert_ne by done.
  destruct (h !! q); [f_equal|]; by apply IH.
Qed.

Lemma omap_filter h l (P : nat → Prop) (Q : entry V → Prop)
    `{!∀ q, Decision (P q)} `{!∀ e, Decision (Q e)} :
  (∀ q e, q ∈ l → h !! q = Some e → (P q ↔ Q e)) →
  (∀ q, q ∈ l → is_Some (h !! q)) →
  omap (λ q, h !! q) (filter P l) = filter Q (omap (λ q, h !! q) l).
Proof.
  induction l as [|q l IH]; intros HPQ Hin; [done|].
  destruct (Hin q) as [e He]; [by left|].
  assert (IH' : omap (λ q, h !! q) (filter P l)
                = filter Q (omap (λ q, h !! q) l)).
  { apply IH; [intros q' e' Hq'; apply HPQ; by right
              |intros q' Hq'; apply Hin; by right]. }
  assert (Hstep : omap (λ q, h !! q) (q :: l) = e :: omap (λ q, h !! q) l)
    by (simpl; by rewrite He).
  rewrite Hstep. destruct (decide (P q)) as [HP|HP].
  - rewrite filter_cons_True by done.
    rewrite filter_cons_True by (by apply (HPQ q e); [left| |]).
    assert (Hstep' : omap (λ q, h !! q) (q :: filter P l)
                     = e :: omap (λ q, h !! q) (filter P l))
      by (simpl; by rewrite He).
    by rewrite Hstep', IH'.
  - rewrite filter_cons_False by done.
    rewrite filter_cons_False; [done|].
    intros HQ. apply HP. by apply (HPQ q e); [left| |].
Qed.

Lemma entries_Remove c p e :
  consistent c → present c p e →
  omap (λ q, lru_heap c !! q) (list_Remove p (lru_list c))
  = without_key (entry_key e) (entries c).
Proof.
  intros Hc [Hp He]. unfold list_Remove, without_key, entries.
  apply omap_filter.
  - intros q e' Hq He'. split.
    + intros Hne Hkey. apply Hne.
      by apply (consistent_key_inj c q p e' e).
    + intros Hkey ->. apply Hkey. congruence.
  - intros q Hq. destruct (cons_heap c Hc q Hq) as (e' & He' & _).
    by exists e'.
Qed.

Lemma lookup_key_entries c key :
  consistent c →
  lookup_key key (entries c)
  = lru_table c !! key ≫= λ p, lru_heap c !! p.
Proof.
  intros Hc. destruct (lru_table c !! key) as [p|] eqn:Hk; simpl.
  - destruct (consistent_lookup c key p Hc Hk) as (e & [Hp He] & Hkey & _).
    rewrite He, <- Hkey. apply lookup_key_NoDup.
    + by apply consistent_NoDup_keys.
    + apply elem_of_entries. by exists p.
  - apply lookup_key_None.
    intros e (p & Hp & He)%elem_of_entries Hkey.
    assert (lru_table c !! key = Some p) by (apply (cons_table c Hc); eauto).
    congruence.
Qed.

Lemma moveToFront_view c p e now c' :
  consistent c → present c p e → moveToFront p now c = Ok c' →
  view_of c' = v_moveToFront (entry_key e) now (view_of c).
Proof.
  intros Hc [Hp He] Hmv.
  rewrite (moveToFront_Ok c p e now He) in Hmv. injection Hmv as <-.
  unfold v_moveToFront, view_of. simpl.
  assert (Hlook : lookup_key (entry_key e) (entries c) = Some e).
  { apply lookup_key_NoDup; [by apply consistent_NoDup_keys|].
    apply elem_of_entries. by exists p. }
  rewrite Hlook. f_equal.
  unfold entries at 1. simpl. unfold list_MoveToFront.
  rewrite decide_True by done.
  assert (Hout : p ∉ list_Remove p (lru_list c))
    by (rewrite elem_of_list_Remove; tauto).
  change (omap (λ q, <[p:=stamp e now]> (lru_heap c) !! q)
            (p :: list_Remove p (lru_list c))
          = stamp e now :: without_key (entry_key e) (entries c)).
  simpl. rewrite lookup_insert_eq. f_equal.
  rewrite omap_insert_notin by done. by apply entries_Remove.
Qed.

(** ** The eviction loop on the sequence *)

Lemma checkCapacity_loop_view fuel c :
  consistent c → (length (lru_list c) < fuel)%nat →
  ∃ c', checkCapacity_loop fuel c = Ok c' ∧ consistent c' ∧
        v_checkCapacity_loop fuel (view_of c) = Ok (view_of c').
Proof.
  revert c. induction fuel as [|fuel IH]; intros c Hc Hlen; [lia|].
  simpl. case_bool_decide as Hover.
  - destruct (over_capacity_nonempty c Hc Hover) as (l' & p & e & Hl & Hp & He).
    rewrite (evict_Ok c l' p e Hl Hp He). simpl.
    pose proof (evict_consistent c l' p e Hc Hl Hp He) as Hc1.
    destruct (IH _ Hc1) as (c' & Hrun & Hc' & Hview).
    { simpl. rewrite Hl, length_app in Hlen. simpl in Hlen. lia. }
    exists c'. split_and!; try done.
    assert (Hes : entries c = omap (λ q, lru_heap c !! q) l' ++ [e]).
    { unfold entries. rewrite Hl, omap_app. f_equal. simpl. by rewrite He. }
    rewrite Hes, last_snoc, removelast_last. exact Hview.
  - exists c. by split_and!.
Qed.

Lemma checkCapacity_view c :
  consistent c →
  ∃ c', checkCapacity c = Ok c' ∧ consistent c' ∧
        v_checkCapacity (view_of c) = Ok (view_of c').
Proof.
  intros Hc. unfold checkCapacity, v_checkCapacity.
  change (v_entries (view_of c)) with (entries c).
  rewrite (consistent_entries_length c Hc).
  apply checkCapacity_loop_view; [done|lia].
Qed.

(** ** Each operation on the sequence *)

Lemma addNew_view c key value now :
  consistent c → lru_table c !! key = None →
  ∃ c', addNew key value now c = Ok c' ∧ consistent c' ∧
        v_addNew key value now (view_of c) = Ok (view_of c').
Proof.
  intros Hc Hk. unfold addNew, v_addNew.
  pose proof (consistent_push c key value now Hc Hk) as Hpush.
  assert (Hfresh : lru_next c ∉ lru_list c)
    by (intros Hin; apply (cons_next c Hc) in Hin; lia).
  destruct (checkCapacity_view _ Hpush) as (c' & Hrun & Hc' & Hview).
  exists c'. split_and!; try done.
  rewrite <- Hview. f_equal. unfold view_of. simpl. f_equal.
  symmetry. by apply entries_push.
Qed.

Lemma updateInplace_view c p e value now :
  consistent c → present c p e →
  ∃ c', updateInplace p value now c = Ok c' ∧ consistent c' ∧
        v_updateInplace e value now (view_of c) = Ok (view_of c').
Proof.
  intros Hc [Hp He]. unfold updateInplace, deref. rewrite He. simpl.
  set (e1 := mkEntry (entry_key e) value (Size value) (entry_timeAccessed e)).
  set (c1 := mkLRU _ _ _ _ _ _).
  assert (Hc1 : consistent c1).
  { apply (consistent_store c p e e1); try done.
    simpl. apply uint64_add_int. }
  assert (He1 : lru_heap c1 !! p = Some e1) by (simpl; apply lookup_insert_eq).
  assert (Hpe1 : present c1 p e1) by by split.
  destruct (moveToFront p now c1) as [c2| |] eqn:Hmv;
    [|by rewrite (moveToFront_Ok c1 p e1 now He1) in Hmv..].
  pose proof (moveToFront_consistent c1 p e1 now c2 Hc1 Hpe1 Hmv) as Hc2.
  pose proof (moveToFront_view c1 p e1 now c2 Hc1 Hpe1 Hmv) as Hview2.
  simpl. destruct (checkCapacity_view c2 Hc2) as (c' & Hrun & Hc' & Hview).
  exists c'. split_and!; try done.
  rewrite <- Hview, Hview2. unfold v_updateInplace, v_moveToFront. f_equal.
  assert (Hlook : lookup_key (entry_key e1) (v_entries (view_of c1)) = Some e1).
  { apply (lookup_key_NoDup (entries c1) e1);
      [by apply consistent_NoDup_keys|].
    apply elem_of_entries. by exists p. }
  rewrite Hlook. simpl. f_equal. f_equal.
  pose proof (entries_Remove c1 p e1 Hc1 Hpe1) as Hr1. simpl in Hr1.
  rewrite <- Hr1, <- (entries_Remove c p e Hc (conj Hp He)).
  symmetry. apply omap_insert_notin. rewrite elem_of_list_Remove. tauto.
Qed.

Lemma Get_view c key now :
  consistent c →
  ∃ c', Get key now c
        = Ok (entry_value <$> lookup_key key (entries c), c') ∧
        consistent c' ∧ view_of c' = v_moveToFront key now (view_of c).
Proof.
  intros Hc. unfold Get. rewrite (lookup_key_entries c key Hc).
  destruct (lru_table c !! key) as [p|] eqn:Hk; simpl.
  - destruct (consistent_lookup c key p Hc Hk) as (e & [Hp He] & Hkey & _).
    pose proof (moveToFront_Ok c p e now He) as Hmv. rewrite Hmv. simpl.
    unfold deref. simpl. rewrite lookup_insert_eq, He. simpl.
    eexists. split; [reflexivity|]. split.
    + by apply (moveToFront_consistent c p e now _ Hc (conj Hp He)).
    + rewrite <- Hkey.
      by apply (moveToFront_view c p e now _ Hc (conj Hp He)).
  - exists c. split_and!; try done.
    unfold v_moveToFront. simpl.
    rewrite (lookup_key_entries c key Hc), Hk. done.
Qed.

Lemma Set_view c key value now :
  consistent c →
  ∃ c', Set_ key value now c = Ok c' ∧ consistent c' ∧
        v_Set key value now (view_of c) = Ok (view_of c').
Proof.
  intros Hc. unfold Set_, v_Set. simpl.
  rewrite (lookup_key_entries c key Hc).
  destruct (lru_table c !! key) as [p|] eqn:Hk; simpl.
  - destruct (consistent_lookup c key p Hc Hk) as (e & [Hp He] & Hkey & _).
    rewrite He. pose proof (moveToFront_Ok c p e now He) as Hmv.
    eexists. split; [exact Hmv|]. split.
    + by apply (moveToFront_consistent c p e now _ Hc (conj Hp He)).
    + f_equal. rewrite <- Hkey. symmetry.
      by apply (moveToFront_view c p e now _ Hc (conj Hp He)).
  - by apply addNew_view.
Qed.

Lemma SetIfAbsent_view c key value now :
  consistent c →
  ∃ c', SetIfAbsent key value now c = Ok c' ∧ consistent c' ∧
        v_SetIfAbsent key value now (view_of c) = Ok (view_of c').
Proof.
  intros Hc. unfold SetIfAbsent, v_SetIfAbsent. simpl.
  rewrite (lookup_key_entries c key Hc).
  destruct (lru_table c !! key) as [p|] eqn:Hk; simpl.
  - destruct (consistent_lookup c key p Hc Hk) as (e & [Hp He] & Hkey & _).
    rewrite He. by exists c.
  - by apply addNew_view.
Qed.

Lemma Delete_view c key :
  consistent c →
  ∃ c', Delete key c = Ok (fst (v_Delete key (view_of c)), c') ∧
        consistent c' ∧ view_of c' = snd (v_Delete key (view_of c)).
Proof.
  intros Hc. unfold Delete, v_Delete. simpl.
  rewrite (lookup_key_entries c key Hc).
  destruct (lru_table c !! key) as [p|] eqn:Hk; simpl.
  - destruct (consistent_lookup c key p Hc Hk) as (e & [Hp He] & Hkey & _).
    unfold deref. rewrite He. simpl.
    exists (mkLRU (list_Remove p (lru_list c)) (delete key (lru_table c))
              (uint64_sub (lru_size c) (uint64 (entry_size e)))
              (lru_capacity c) (lru_heap c) (lru_next c)).
    split; [reflexivity|]. split.
    + pose proof (consistent_remove c p e Hc Hp He) as Hr.
      by rewrite Hkey in Hr.
    + unfold view_of. simpl. f_equal.
      pose proof (entries_Remove c p e Hc (conj Hp He)) as Hr.
      by rewrite Hkey in Hr.
  - by exists c.
Qed.

Lemma SetCapacity_view c capacity :
  consistent c → is_uint64 capacity →
  ∃ c', SetCapacity capacity c = Ok c' ∧ consistent c' ∧
        v_SetCapacity capacity (view_of c) = Ok (view_of c').
Proof.
  intros Hc Hcap. unfold SetCapacity, v_SetCapacity.
  by apply (checkCapacity_view _ (consistent_capacity c capacity Hc Hcap)).
Qed.

End ViewTheory.

Section ViewPersistenceTheory.
Context {V : Type} `{!Value V} {Stream : Type} `{!Gob V Stream}.
Implicit Types (c : LRUCache V) (e : entry V) (p q : nat).

Lemma loadItem_view c item now :
  consistent c →
  ∃ c', loadItem item now c = Ok c' ∧ consistent c' ∧
        v_loadItem item now (view_of c) = Ok (view_of c').
Proof.
  intros Hc. unfold loadItem, v_loadItem. simpl.
  rewrite (lookup_key_entries c _ Hc).
  destruct (lru_table c !! item_Key item) as [p|] eqn:Hk; simpl.
  - destruct (consistent_lookup c _ p Hc Hk) as (e & [Hp He] & Hkey & _).
    rewrite He. by apply updateInplace_view.
  - by apply addNew_view.
Qed.

Lemma loadLoop_view items clock c :
  consistent c →
  ∃ c', loadLoop items clock c = Ok c' ∧ consistent c' ∧
        v_loadLoop items clock (view_of c) = Ok (view_of c').
Proof.
  revert clock c. induction items as [|item items IH]; intros clock c Hc.
  - by exists c.
  - destruct (loadItem_view c item (clock O) Hc) as (c1 & Hrun1 & Hc1 & Hv1).
    destruct (IH (λ i, clock (S i)) c1 Hc1) as (c' & Hrun & Hc' & Hv).
    exists c'. simpl. rewrite Hrun1, Hv1. simpl. by split_and!.
Qed.

(** Every public operation, on a consistent state, ends normally, and what
    it makes of the view of the state is what the operation on views makes
    of it. *)
Lemma run_op_view (o : op V Stream) c :
  consistent c → op_typed o →
  ∃ c', run_op o c = Ok c' ∧ consistent c' ∧
        v_run_op o (view_of c) = Ok (view_of c').
Proof.
  intros Hc Ho. destruct o as [key now|key value now|key value now|key|
                               |capacity|r clock]; simpl.
  - destruct (Get_view c key now Hc) as (c' & -> & Hc' & Hv).
    exists c'. split_and!; try done. by rewrite Hv.
  - by apply Set_view.
  - by apply SetIfAbsent_view.
  - destruct (Delete_view c key Hc) as (c' & -> & Hc' & Hv).
    exists c'. split_and!; try done. by rewrite Hv.
  - exists (Clear c). split_and!; try done. by apply consistent_Clear.
  - by apply SetCapacity_view.
  - unfold LoadItems. destruct (gob_Decode r) as [items|err].
    + destruct (loadLoop_view items clock c Hc) as (c' & -> & Hc' & Hv).
      by exists c'.
    + by exists c.
Qed.

Lemma run_ops_view (ops : list (op V Stream)) c :
  consistent c → Forall op_typed ops →
  ∃ c', run_ops ops c = Ok c' ∧ consistent c' ∧
        v_run_ops ops (view_of c) = Ok (view_of c').
Proof.
  intros Hc Hops. revert c Hc.
  induction Hops as [|o ops Ho _ IH]; intros c Hc; [by exists c|].
  destruct (run_op_view o c Hc Ho) as (c1 & Hrun1 & Hc1 & Hv1).
  destruct (IH c1 Hc1) as (c' & Hrun & Hc' & Hv).
  exists c'. simpl. rewrite Hrun1, Hv1. simpl. by split_and!.
Qed.

End ViewPersistenceTheory.

Section ViewFacts.
Context {V : Type} `{!Value V}.
Implicit Types (c : LRUCache V) (e : entry V) (es : list (entry V)).
Implicit Types (v : view V).

(** ** What the loop does to the sequence *)

Lemma removelast_prefix es : removelast es `prefix_of` es.
Proof.
  destruct (last es) as [e|] eqn:Hlast.
  - apply last_Some in Hlast as [es' ->]. rewrite removelast_last.
    by exists [e].
  - apply last_None in Hlast as ->. done.
Qed.

Lemma v_checkCapacity_loop_prefix fuel v v' :
  v_checkCapacity_loop fuel v = Ok v' →
  v_entries v' `prefix_of` v_entries v ∧ v_size v' ≤ v_capacity v' ∧
  v_capacity v' = v_capacity v.
Proof.
  revert v. induction fuel as [|fuel IH]; intros v; simpl.
  - case_bool_decide; [done|]. intros [= <-]. split_and!; [done|lia|done].
  - case_bool_decide; [|intros [= <-]; split_and!; [done|lia|done]].
    destruct (last (v_entries v)) as [e|]; [|done].
    intros (Hpre & Hle & Hcap)%IH. simpl in *. split_and!; try done.
    etrans; [exact Hpre|apply removelast_prefix].
Qed.

Lemma v_checkCapacity_loop_fits fuel v :
  v_size v ≤ v_capacity v → v_checkCapacity_loop fuel v = Ok v.
Proof.
  intros Hle. destruct fuel; simpl; rewrite bool_decide_eq_false_2 by lia;
    reflexivity.
Qed.

(** ** The observers read the view *)

Lemma entry_item_without_key key es :
  entry_item <$> without_key key es
  = filter (λ item, item_Key item ≠ key) (entry_item <$> es).
Proof.
  induction es as [|e es IH]; [done|].
  unfold without_key in *. rewrite fmap_cons.
  destruct (decide (entry_key e = key)) as [Hk|Hk].
  - rewrite filter_cons_False by tauto.
    rewrite filter_cons_False by (simpl; tauto). done.
  - rewrite filter_cons_True by done.
    rewrite filter_cons_True by done. rewrite fmap_cons. by f_equal.
Qed.

Lemma item_Key_entry_item es : item_Key <$> (entry_item <$> es) = entry_key <$> es.
Proof. rewrite <- list_fmap_compose. done. Qed.

Lemma lookup_key_item key value es :
  NoDup (entry_key <$> es) → mkItem key value ∈ entry_item <$> es →
  ∃ e, lookup_key key es = Some e ∧ entry_key e = key ∧ entry_value e = value.
Proof.
  intros Hnd (e & Heq & He)%list_elem_of_fmap.
  injection Heq as -> ->. exists e. split_and!; try done.
  by apply lookup_key_NoDup.
Qed.

Lemma lookup_key_table_None c key :
  consistent c → lookup_key key (entries c) = None →
  lru_table c !! key = None.
Proof.
  intros Hc Hlook. rewrite (lookup_key_entries c key Hc) in Hlook.
  destruct (lru_table c !! key) as [p|] eqn:Hk; [|done].
  destruct (consistent_lookup c key p Hc Hk) as (e & [Hp He] & _).
  simpl in Hlook. congruence.
Qed.

Lemma Stats_view c :
  consistent c →
  Stats c = Ok (uint64 (Z.of_nat (length (entries c))), lru_size c,
                lru_capacity c,
                from_option entry_timeAccessed zeroTime (last (entries c))).
Proof.
  intros Hc. unfold Stats. rewrite (consistent_entries_length c Hc).
  destruct (list_Back (lru_list c)) as [p|] eqn:Hback.
  - apply list_Back_Some in Hback as [l' Hl].
    destruct (cons_heap c Hc p) as (e & He & _); [rewrite Hl; set_solver|].
    unfold deref. rewrite He. simpl.
    assert (Hes : entries c = omap (λ q, lru_heap c !! q) l' ++ [e]).
    { unfold entries. rewrite Hl, omap_app. f_equal. simpl. by rewrite He. }
    by rewrite Hes, last_snoc.
  - apply list_Back_None in Hback. unfold entries. rewrite Hback. done.
Qed.

(** Two consistent states with the same view answer alike. *)
Lemma observers_view c1 c2 :
  consistent c1 → consistent c2 → view_of c1 = view_of c2 →
  Items c1 = Items c2 ∧ Keys c1 = Keys c2 ∧ Stats c1 = Stats c2 ∧
  (∀ key now, fst <$> Get key now c1 = fst <$> Get key now c2) ∧
  (∀ key, fst <$> Delete key c1 = fst <$> Delete key c2).
Proof.
  intros Hc1 Hc2 Hview. injection Hview as Hes Hsz Hcap.
  split_and!.
  - by rewrite (consistent_Items c1 Hc1), (consistent_Items c2 Hc2), Hes.
  - by rewrite (consistent_Keys c1 Hc1), (consistent_Keys c2 Hc2), Hes.
  - by rewrite (Stats_view c1 Hc1), (Stats_view c2 Hc2), Hes, Hsz, Hcap.
  - intros key now.
    destruct (Get_view c1 key now Hc1) as (c1' & -> & _).
    destruct (Get_view c2 key now Hc2) as (c2' & -> & _).
    simpl. by rewrite Hes.
  - intros key.
    destruct (Delete_view c1 key Hc1) as (c1' & -> & _).
    destruct (Delete_view c2 key Hc2) as (c2' & -> & _).
    simpl. unfold v_Delete, view_of. simpl. rewrite Hes.
    by destruct (lookup_key key (entries c2)).
Qed.

End ViewFacts.

(** * Further properties of the cache *)

Lemma sample_state_Items :
  Items sample_state
  = Ok [mkItem "C" (mkBlob "c" 1); mkItem "A" (mkBlob "a" 1)].
Proof. reflexivity. Qed.

(** ** Lookup *)

(** X1: in every state of a cache, [Get] answers as [Items] lists. On a key
    that [Items] does not list it misses and returns the state it was given.
    On a key listed with a value it returns that value, and the item moves
    to the front of [Items]; the other items keep their order and values,
    and the accounted size and the capacity are as before. *)
Theorem Get_agrees_with_Items
    {V} `{!Value V} {Stream} `{!Gob V Stream}
    (c : LRUCache V) (items : list (Item V)) (key : string) (now : Time) :
  reachable (Stream:=Stream) c → Items c = Ok items →
  (key ∉ item_Key <$> items → Get key now c = Ok (None, c)) ∧
  (∀ value, mkItem key value ∈ items →
     ∃ c', Get key now c = Ok (Some value, c') ∧
           Items c' = Ok (mkItem key value
                            :: filter (λ item, item_Key item ≠ key) items) ∧
           lru_size c' = lru_size c ∧ lru_capacity c' = lru_capacity c).
Proof.
  intros Hc%reachable_consistent Hitems.
  rewrite (consistent_Items c Hc) in Hitems. injection Hitems as <-.
  split.
  - rewrite item_Key_entry_item. intros Hk%lookup_key_not_in.
    apply (lookup_key_table_None c key Hc) in Hk. unfold Get. by rewrite Hk.
  - intros value Hin.
    destruct (lookup_key_item key value (entries c)
                (consistent_NoDup_keys c Hc) Hin) as (e & Hlook & Hkey & Hval).
    destruct (Get_view c key now Hc) as (c' & Hget & Hc' & Hview).
    exists c'. rewrite Hget, Hlook. simpl. rewrite Hval.
    unfold v_moveToFront in Hview. simpl in Hview. rewrite Hlook in Hview.
    injection Hview as Hes Hsz Hcap. split_and!; try done.
    rewrite (consistent_Items c' Hc'), Hes, fmap_cons.
    rewrite entry_item_without_key.
    unfold entry_item at 1. simpl. by rewrite Hkey, Hval.
Qed.

Lemma Get_agrees_with_Items_witness :
  reachable (Stream:=SampleStream) sample_state ∧
  Items sample_state
    = Ok [mkItem "C" (mkBlob "c" 1); mkItem "A" (mkBlob "a" 1)] ∧
  mkItem "A" (mkBlob "a" 1)
    ∈ [mkItem "C" (mkBlob "c" 1); mkItem "A" (mkBlob "a" 1)] ∧
  ∃ c', Get "A" 9 sample_state = Ok (Some (mkBlob "a" 1), c') ∧
        Items c' = Ok (mkItem "A" (mkBlob "a" 1)
                         :: filter (λ item, item_Key item ≠ "A")
                              [mkItem "C" (mkBlob "c" 1);
                               mkItem "A" (mkBlob "a" 1)]) ∧
        lru_size c' = lru_size sample_state ∧
        lru_capacity c' = lru_capacity sample_state.
Proof.
  assert (Hin : mkItem "A" (mkBlob "a" 1)
                  ∈ [mkItem "C" (mkBlob "c" 1); mkItem "A" (mkBlob "a" 1)])
    by (right; left).
  split_and!; [exact sample_state_reachable|exact sample_state_Items|exact Hin|].
  exact (proj2 (Get_agrees_with_Items sample_state _ "A" 9
                  sample_state_reachable sample_state_Items) _ Hin).
Defined.

(** X14: in every state of a cache the enumerations agree: [Keys] lists the
    keys of [Items] in the same order, no key twice, and [Stats] reports
    their number, the accounted size and the capacity. *)
Theorem Keys_Items_Stats_agree
    {V} `{!Value V} {Stream} `{!Gob V Stream} (c : LRUCache V) :
  reachable (Stream:=Stream) c →
  ∃ items oldest,
    Items c = Ok items ∧ Keys c = Ok (item_Key <$> items) ∧
    NoDup (item_Key <$> items) ∧
    Stats c = Ok (uint64 (Z.of_nat (length items)), lru_size c,
                  lru_capacity c, oldest).
Proof.
  intros Hc%reachable_consistent.
  exists (entry_item <$> entries c), 
    (from_option entry_timeAccessed zeroTime (last (entries c))).
  rewrite item_Key_entry_item, length_fmap. split_and!.
  - by apply consistent_Items.
  - by apply consistent_Keys.
  - by apply consistent_NoDup_keys.
  - by apply Stats_view.
Qed.

Lemma Keys_Items_Stats_agree_witness :
  reachable (Stream:=SampleStream) sample_state ∧
  ∃ items oldest,
    Items sample_state = Ok items ∧
    Keys sample_state = Ok (item_Key <$> items) ∧
    NoDup (item_Key <$> items) ∧
    Stats sample_state
      = Ok (uint64 (Z.of_nat (length items)), lru_size sample_state,
            lru_capacity sample_state, oldest).
Proof.
  split; [exact sample_state_reachable|].
  exact (Keys_Items_Stats_agree sample_state sample_state_reachable).
Defined.

(** ** Insertion *)

Section Insertion.
Context {V : Type} `{!Value V}.
Implicit Types (c : LRUCache V) (e : entry V).

Lemma app_head_not_in {A} (x : A) (l l1 l2 : list A) :
  x :: l = l1 ++ l2 → x ∉ l1 → l1 = [].
Proof.
  destruct l1 as [|y l1]; [done|]. intros [= <- _] Hx.
  exfalso. apply Hx. by left.
Qed.

(** A new entry in a state without wrap-around: the loop ends on a state
    without wrap-around; the new entry is at the front afterwards when its
    size is within the capacity, and nothing is left when it is not. *)
Lemma addNew_kept_or_dropped c key value now :
  consistent c → modest c → lru_table c !! key = None → 0 ≤ Size value →
  ∃ c', addNew key value now c = Ok c' ∧ consistent c' ∧ exact c' ∧
        lru_size c' ≤ lru_capacity c' ∧ lru_capacity c' = lru_capacity c ∧
        ((Size value ≤ lru_capacity c ∧
          ∃ rest, entries c' = mkEntry key value (Size value) now :: rest) ∨
         (lru_capacity c < Size value ∧ entries c' = [])).
Proof.
  intros Hc ([Hpos Hsz] & Hle & Hcap) Hk Hv. unfold addNew.
  pose proof (consistent_push c key value now Hc Hk) as Hpush.
  assert (Hfresh : lru_next c ∉ lru_list c)
    by (intros Hin; apply (cons_next c Hc) in Hin; lia).
  pose proof (Size_below_half value) as Hhalf.
  set (new := mkEntry key value (Size value) now) in *.
  set (pushed := mkLRU _ _ _ _ _ _) in *.
  assert (Hex : exact pushed).
  { apply exact_intro; [done| |].
    - intros p e [[->|Hp]%elem_of_cons He]; simpl in He.
      + rewrite lookup_insert_eq in He. by injection He as <-.
      + rewrite lookup_insert_ne in He by (intros <-; done). by apply (Hpos p).
    - unfold total, list_PushFront. simpl.
      rewrite total_of_insert_notin by done.
      unfold size_at. rewrite lookup_insert_eq. simpl. fold (total c).
      unfold uint64_modulus. lia. }
  destruct (checkCapacity_spec pushed Hpush)
    as (c' & gone & Hrun & Hc' & Hle' & Hlist & Hheap & Hcap' & _ & _ & Hforced).
  destruct (exact_prefix pushed c' gone Hpush Hc' Hex Hlist Hheap)
    as [Hex' _].
  exists c'. split_and!; try done.
  simpl in Hlist, Hheap, Hcap', Hforced. unfold list_PushFront in Hlist.
  assert (Hnew : lru_heap c' !! lru_next c = Some new)
    by (rewrite Hheap; apply lookup_insert_eq).
  destruct (decide (Size value ≤ lru_capacity c)) as [Hfit|Hbig].
  - left. split; [done|].
    destruct (lru_list c') as [|q l'] eqn:Hl'.
    + exfalso. simpl in Hlist. subst gone.
      specialize (Hforced O ltac:(simpl; lia)). simpl in Hforced.
      unfold size_at in Hforced. rewrite lookup_insert_eq in Hforced.
      simpl in Hforced. rewrite Z.add_0_r in Hforced.
      rewrite uint64_small in Hforced by (unfold is_uint64, uint64_modulus; lia).
      lia.
    + injection Hlist as <- _. unfold entries. rewrite Hl'. simpl.
      rewrite Hnew. by eexists.
  - right. split; [lia|].
    assert (Hout : lru_next c ∉ lru_list c').
    { intros Hin.
      assert (entry_size new ≤ total c').
      { apply (total_of_elem_le _ _ (lru_next c)); [|done|done].
        intros q e Hq He. by apply (proj1 Hex' q). }
      rewrite <- (proj2 Hex') in *. simpl in *. lia. }
    apply app_head_not_in in Hlist; [|done].
    unfold entries. by rewrite Hlist.
Qed.

End Insertion.

Lemma sample_state_modest : modest sample_state.
Proof.
  split_and!.
  - exact sample_state_exact.
  - vm_compute. discriminate.
  - vm_compute. discriminate.
Qed.

(** X2: in every state of a cache, [Set] of a key that is not in the index
    leaves the new item followed by the most recently used of the old
    items: the items afterwards are a prefix of the new item followed by the
    old items, in their order and with their values. The accounted size is
    within the capacity afterwards, and the capacity is as before. *)
Theorem Set_new_key_keeps_most_recent
    {V} `{!Value V} {Stream} `{!Gob V Stream}
    (c : LRUCache V) (items : list (Item V)) (key : string) (value : V)
    (now : Time) :
  reachable (Stream:=Stream) c → Items c = Ok items →
  lru_table c !! key = None →
  ∃ c' kept,
    Set_ key value now c = Ok c' ∧ Items c' = Ok kept ∧
    kept `prefix_of` mkItem key value :: items ∧
    lru_size c' ≤ lru_capacity c' ∧ lru_capacity c' = lru_capacity c.
Proof.
  intros Hc%reachable_consistent Hitems Hk.
  rewrite (consistent_Items c Hc) in Hitems. injection Hitems as <-.
  destruct (Set_view c key value now Hc) as (c' & Hset & Hc' & Hview).
  exists c', (entry_item <$> entries c'). split_and!; try done.
  - by apply consistent_Items.
  - unfold v_Set in Hview. simpl in Hview.
    rewrite (lookup_key_entries c key Hc), Hk in Hview. simpl in Hview.
    apply v_checkCapacity_loop_prefix in Hview as ([k Hpre] & _). simpl in Hpre.
    exists (entry_item <$> k).
    change (mkItem key value :: (entry_item <$> entries c))
      with (entry_item <$> mkEntry key value (Size value) now :: entries c).
    by rewrite Hpre, fmap_app.
  - unfold v_Set in Hview. simpl in Hview.
    rewrite (lookup_key_entries c key Hc), Hk in Hview. simpl in Hview.
    by apply v_checkCapacity_loop_prefix in Hview as (_ & Hle & _).
  - unfold v_Set in Hview. simpl in Hview.
    rewrite (lookup_key_entries c key Hc), Hk in Hview. simpl in Hview.
    by apply v_checkCapacity_loop_prefix in Hview as (_ & _ & Hcap).
Qed.

Lemma Set_new_key_keeps_most_recent_witness :
  reachable (Stream:=SampleStream) sample_state ∧
  Items sample_state
    = Ok [mkItem "C" (mkBlob "c" 1); mkItem "A" (mkBlob "a" 1)] ∧
  lru_table sample_state !! "D" = None ∧
  ∃ c' kept,
    Set_ "D" (mkBlob "d" 1) 9 sample_state = Ok c' ∧ Items c' = Ok kept ∧
    kept `prefix_of` mkItem "D" (mkBlob "d" 1)
                       :: [mkItem "C" (mkBlob "c" 1);
                           mkItem "A" (mkBlob "a" 1)] ∧
    lru_size c' ≤ lru_capacity c' ∧
    lru_capacity c' = lru_capacity sample_state.
Proof.
  assert (Hk : lru_table sample_state !! "D" = None) by reflexivity.
  split_and!; [exact sample_state_reachable|exact sample_state_Items|exact Hk|].
  exact (Set_new_key_keeps_most_recent sample_state _ "D" (mkBlob "d" 1) 9
           sample_state_reachable sample_state_Items Hk).
Defined.

(** X3: in a state of a cache without wrap-around and within a capacity of
    at most [2^63], a value of a non-negative size within the capacity, set
    under a key that is not in the index, is stored: it is the first of
    [Items] afterwards and [Get] of the key returns it. *)
Theorem Set_then_Get_returns_the_value
    {V} `{!Value V} {Stream} `{!Gob V Stream}
    (c : LRUCache V) (key : string) (value : V) (t1 t2 : Time) :
  reachable (Stream:=Stream) c → modest c →
  lru_table c !! key = None → 0 ≤ Size value ≤ lru_capacity c →
  ∃ c1 c2 rest,
    Set_ key value t1 c = Ok c1 ∧
    Items c1 = Ok (mkItem key value :: rest) ∧
    Get key t2 c1 = Ok (Some value, c2).
Proof.
  intros Hc%reachable_consistent Hm Hk [Hv Hfit].
  destruct (addNew_kept_or_dropped c key value t1 Hc Hm Hk Hv)
    as (c1 & Hadd & Hc1 & _ & _ & _ & [[_ [rest Hes]]|[Hbig _]]); [|lia].
  destruct (Get_view c1 key t2 Hc1) as (c2 & Hget & _).
  exists c1, c2, (entry_item <$> rest). split_and!.
  - unfold Set_. by rewrite Hk.
  - by rewrite (consistent_Items c1 Hc1), Hes.
  - rewrite Hget, Hes. simpl. by rewrite decide_True.
Qed.

Lemma Set_then_Get_returns_the_value_witness :
  reachable (Stream:=SampleStream) sample_state ∧ modest sample_state ∧
  lru_table sample_state !! "D" = None ∧
  0 ≤ Size (mkBlob "d" 2) ≤ lru_capacity sample_state ∧
  ∃ c1 c2 rest,
    Set_ "D" (mkBlob "d" 2) 8 sample_state = Ok c1 ∧
    Items c1 = Ok (mkItem "D" (mkBlob "d" 2) :: rest) ∧
    Get "D" 9 c1 = Ok (Some (mkBlob "d" 2), c2).
Proof.
  assert (Hk : lru_table sample_state !! "D" = None) by reflexivity.
  assert (Hv : 0 ≤ Size (mkBlob "d" 2) ≤ lru_capacity sample_state)
    by (split; vm_compute; discriminate).
  refine (conj sample_state_reachable
            (conj sample_state_modest (conj Hk (conj Hv _)))).
  exact (Set_then_Get_returns_the_value sample_state "D" (mkBlob "d" 2) 8 9
           sample_state_reachable sample_state_modest Hk Hv).
Defined.

(** X4: in a state of a cache without wrap-around and within a capacity of
    at most [2^63], a value larger than the capacity, set under a key that
    is not in the index, is not stored and takes every entry with it: the
    cache is empty afterwards, with an accounted size of 0, and [Get] misses
    on every key. *)
Theorem Set_oversized_value_empties_the_cache
    {V} `{!Value V} {Stream} `{!Gob V Stream}
    (c : LRUCache V) (key : string) (value : V) (now : Time) :
  reachable (Stream:=Stream) c → modest c →
  lru_table c !! key = None → lru_capacity c < Size value →
  ∃ c',
    Set_ key value now c = Ok c' ∧
    Items c' = Ok [] ∧ Keys c' = Ok [] ∧ lru_size c' = 0 ∧
    ∀ k t, Get k t c' = Ok (None, c').
Proof.
  intros Hc%reachable_consistent Hm Hk Hbig.
  assert (Hv : 0 ≤ Size value).
  { pose proof (cons_capacity c Hc) as [Hcap _]. lia. }
  destruct (addNew_kept_or_dropped c key value now Hc Hm Hk Hv)
    as (c' & Hadd & Hc' & Hex' & _ & _ & [[Hfit _]|[_ Hes]]); [lia|].
  exists c'. split_and!.
  - unfold Set_. by rewrite Hk.
  - by rewrite (consistent_Items c' Hc'), Hes.
  - by rewrite (consistent_Keys c' Hc'), Hes.
  - rewrite (proj2 Hex'). unfold total.
    pose proof (consistent_entries_length c' Hc') as Hlen.
    rewrite Hes in Hlen. simpl in Hlen.
    destruct (lru_list c'); [done|simpl in Hlen; lia].
  - intros k t. unfold Get.
    rewrite (lookup_key_table_None c' k Hc'); [done|]. by rewrite Hes.
Qed.

Lemma Set_oversized_value_empties_the_cache_witness :
  reachable (Stream:=SampleStream) sample_state ∧ modest sample_state ∧
  lru_table sample_state !! "D" = None ∧
  lru_capacity sample_state < Size (mkBlob "d" 3) ∧
  ∃ c',
    Set_ "D" (mkBlob "d" 3) 9 sample_state = Ok c' ∧
    Items c' = Ok [] ∧ Keys c' = Ok [] ∧ lru_size c' = 0 ∧
    ∀ k t, Get k t c' = Ok (None, c').
Proof.
  assert (Hk : lru_table sample_state !! "D" = None) by reflexivity.
  assert (Hv : lru_capacity sample_state < Size (mkBlob "d" 3))
    by (vm_compute; reflexivity).
  split_and!; [exact sample_state_reachable|exact sample_state_modest
              |exact Hk|exact Hv|].
  exact (Set_oversized_value_empties_the_cache sample_state "D" (mkBlob "d" 3)
           9 sample_state_reachable sample_state_modest Hk Hv).
Defined.

(** ** Removal *)

(** X5: in every state of a cache, [Delete] returns whether [Items] lists
    the key, and leaves the other items in their order and with their
    values; afterwards a second [Delete] of the key returns [false] and
    [Get] of the key misses, both without a change of the state. *)
Theorem Delete_removes_exactly_the_key
    {V} `{!Value V} {Stream} `{!Gob V Stream}
    (c : LRUCache V) (items : list (Item V)) (key : string) :
  reachable (Stream:=Stream) c → Items c = Ok items →
  ∃ c',
    Delete key c = Ok (bool_decide (key ∈ item_Key <$> items), c') ∧
    Items c' = Ok (filter (λ item, item_Key item ≠ key) items) ∧
    lru_capacity c' = lru_capacity c ∧
    Delete key c' = Ok (false, c') ∧
    ∀ now, Get key now c' = Ok (None, c').
Proof.
  intros Hc%reachable_consistent Hitems.
  rewrite (consistent_Items c Hc) in Hitems. injection Hitems as <-.
  destruct (Delete_view c key Hc) as (c' & Hdel & Hc' & Hview).
  assert (Hes : entries c' = without_key key (entries c)).
  { unfold v_Delete in Hview. simpl in Hview.
    destruct (lookup_key key (entries c)) as [e|] eqn:Hlook;
      simpl in Hview; injection Hview as Hes _ _; [done|].
    rewrite Hes. symmetry. apply without_key_not_in.
    by apply lookup_key_not_in. }
  assert (Hcap : lru_capacity c' = lru_capacity c).
  { unfold v_Delete in Hview. simpl in Hview.
    destruct (lookup_key key (entries c)); simpl in Hview;
      by injection Hview as _ _ Hcap. }
  assert (Hgone : lru_table c' !! key = None).
  { apply (lookup_key_table_None c' key Hc'). rewrite Hes.
    apply lookup_key_without. }
  exists c'. split_and!; try done.
  - rewrite Hdel. do 2 f_equal. unfold v_Delete. simpl.
    rewrite item_Key_entry_item.
    destruct (lookup_key key (entries c)) as [e|] eqn:Hlook; simpl.
    + symmetry. apply bool_decide_eq_true_2.
      apply lookup_key_Some in Hlook as [He <-].
      apply list_elem_of_fmap. by exists e.
    + symmetry. apply bool_decide_eq_false_2. by apply lookup_key_not_in.
  - by rewrite (consistent_Items c' Hc'), Hes, entry_item_without_key.
  - unfold Delete. by rewrite Hgone.
  - intros now. unfold Get. by rewrite Hgone.
Qed.

Lemma Delete_removes_exactly_the_key_witness :
  reachable (Stream:=SampleStream) sample_state ∧
  Items sample_state
    = Ok [mkItem "C" (mkBlob "c" 1); mkItem "A" (mkBlob "a" 1)] ∧
  ∃ c',
    Delete "C" sample_state
      = Ok (bool_decide ("C" ∈ item_Key <$> [mkItem "C" (mkBlob "c" 1);
                                             mkItem "A" (mkBlob "a" 1)]),
            c') ∧
    Items c' = Ok (filter (λ item, item_Key item ≠ "C")
                     [mkItem "C" (mkBlob "c" 1); mkItem "A" (mkBlob "a" 1)]) ∧
    lru_capacity c' = lru_capacity sample_state ∧
    Delete "C" c' = Ok (false, c') ∧
    ∀ now, Get "C" now c' = Ok (None, c').
Proof.
  split_and!; [exact sample_state_reachable|exact sample_state_Items|].
  exact (Delete_removes_exactly_the_key sample_state _ "C"
           sample_state_reachable sample_state_Items).
Defined.

(** X6: in every state of a cache, [Set] of a value of a non-negative size
    that fits beside the present entries, under a key that is not in the
    index, followed by [Delete] of that key, gives the cache back: the same
    entries in the same order with the same values and access times, the
    same accounted size and capacity, and so the same [Items] and
    [Stats]. *)
Theorem Set_then_Delete_restores
    {V} `{!Value V} {Stream} `{!Gob V Stream}
    (c : LRUCache V) (key : string) (value : V) (now : Time) :
  reachable (Stream:=Stream) c →
  lru_table c !! key = None → 0 ≤ Size value →
  lru_size c + Size value ≤ lru_capacity c →
  ∃ c1 c2,
    Set_ key value now c = Ok c1 ∧ Delete key c1 = Ok (true, c2) ∧
    view_of c2 = view_of c ∧ Items c2 = Items c ∧ Stats c2 = Stats c.
Proof.
  intros Hc%reachable_consistent Hk Hv Hfit.
  pose proof (consistent_size_range c Hc) as [Hs0 Hs1].
  pose proof (cons_capacity c Hc) as [_ Hcap].
  pose proof (addNew_fits c key value now Hv Hs0 Hfit Hcap) as Hadd.
  pose proof (consistent_push c key value now Hc Hk) as Hpush.
  assert (Heq : uint64_add (lru_size c) (uint64 (Size value))
                = lru_size c + Size value).
  { unfold uint64_add. rewrite (uint64_small (Size value))
      by (unfold is_uint64; lia).
    apply uint64_small. unfold is_uint64. lia. }
  rewrite Heq in Hpush. unfold list_PushFront in Hpush.
  set (c1 := mkLRU _ _ _ _ _ _) in *.
  assert (Hfresh : lru_next c ∉ lru_list c)
    by (intros Hin; apply (cons_next c Hc) in Hin; lia).
  assert (Hes1 : entries c1 = mkEntry key value (Size value) now :: entries c)
    by by apply entries_push.
  destruct (Delete_view c1 key Hpush) as (c2 & Hdel & Hc2 & Hview).
  unfold v_Delete in Hdel, Hview. simpl in Hdel, Hview.
  rewrite Hes1 in Hdel, Hview. simpl in Hdel, Hview.
  rewrite decide_True in Hdel, Hview by done. simpl in Hdel, Hview.
  assert (Hview' : view_of c2 = view_of c).
  { rewrite Hview. unfold view_of. f_equal.
    - unfold without_key. rewrite filter_cons_False by (simpl; tauto).
      apply without_key_not_in. apply lookup_key_not_in.
      rewrite (lookup_key_entries c key Hc), Hk. done.
    - unfold uint64_sub. rewrite (uint64_small (Size value))
        by (unfold is_uint64; lia).
      replace (lru_size c + Size value - Size value) with (lru_size c) by lia.
      by apply uint64_small. }
  exists c1, c2. split_and!; try done.
  - unfold Set_. by rewrite Hk.
  - by apply observers_view.
  - by apply observers_view.
Qed.

Lemma Set_then_Delete_restores_witness :
  reachable (Stream:=SampleStream) sample_state ∧
  lru_table sample_state !! "D" = None ∧ 0 ≤ Size (mkBlob "d" 0) ∧
  lru_size sample_state + Size (mkBlob "d" 0) ≤ lru_capacity sample_state ∧
  ∃ c1 c2,
    Set_ "D" (mkBlob "d" 0) 9 sample_state = Ok c1 ∧
    Delete "D" c1 = Ok (true, c2) ∧
    view_of c2 = view_of sample_state ∧ Items c2 = Items sample_state ∧
    Stats c2 = Stats sample_state.
Proof.
  assert (Hk : lru_table sample_state !! "D" = None) by reflexivity.
  assert (Hv : 0 ≤ Size (mkBlob "d" 0)) by (vm_compute; discriminate).
  assert (Hfit : lru_size sample_state + Size (mkBlob "d" 0)
                 ≤ lru_capacity sample_state) by (vm_compute; discriminate).
  refine (conj sample_state_reachable (conj Hk (conj Hv (conj Hfit _)))).
  exact (Set_then_Delete_restores sample_state "D" (mkBlob "d" 0) 9
           sample_state_reachable Hk Hv Hfit).
Defined.

(** ** The capacity *)

(** X7: in every state of a cache, [SetCapacity] makes the capacity the one
    given and keeps the most recently used items: the items afterwards are a
    prefix of the items before, and the accounted size is within the new
    capacity. When the accounted size was within the new capacity already,
    no item goes and the accounted size stays. *)
Theorem SetCapacity_keeps_most_recent
    {V} `{!Value V} {Stream} `{!Gob V Stream}
    (c : LRUCache V) (items : list (Item V)) (capacity : Z) :
  reachable (Stream:=Stream) c → Items c = Ok items → is_uint64 capacity →
  ∃ c' kept,
    SetCapacity capacity c = Ok c' ∧ Items c' = Ok kept ∧
    kept `prefix_of` items ∧
    lru_capacity c' = capacity ∧ lru_size c' ≤ capacity ∧
    (lru_size c ≤ capacity → kept = items ∧ lru_size c' = lru_size c).
Proof.
  intros Hc%reachable_consistent Hitems Hcap.
  rewrite (consistent_Items c Hc) in Hitems. injection Hitems as <-.
  destruct (SetCapacity_view c capacity Hc Hcap) as (c' & Hset & Hc' & Hview).
  unfold v_SetCapacity, v_checkCapacity in Hview.
  destruct (v_checkCapacity_loop_prefix _ _ _ Hview)
    as ([k Hpre] & Hle & Hcap').
  simpl in Hpre, Hle, Hcap'.
  exists c', (entry_item <$> entries c'). split_and!; try done.
  - by apply consistent_Items.
  - exists (entry_item <$> k). by rewrite Hpre, fmap_app.
  - lia.
  - intros Hfit. rewrite v_checkCapacity_loop_fits in Hview by done.
    injection Hview as Hes Hsz _. by rewrite Hes, Hsz.
Qed.

Lemma SetCapacity_keeps_most_recent_witness :
  reachable (Stream:=SampleStream) sample_state ∧
  Items sample_state
    = Ok [mkItem "C" (mkBlob "c" 1); mkItem "A" (mkBlob "a" 1)] ∧
  is_uint64 1 ∧
  ∃ c' kept,
    SetCapacity 1 sample_state = Ok c' ∧ Items c' = Ok kept ∧
    kept `prefix_of` [mkItem "C" (mkBlob "c" 1); mkItem "A" (mkBlob "a" 1)] ∧
    lru_capacity c' = 1 ∧ lru_size c' ≤ 1 ∧
    (lru_size sample_state ≤ 1 →
     kept = [mkItem "C" (mkBlob "c" 1); mkItem "A" (mkBlob "a" 1)] ∧
     lru_size c' = lru_size sample_state).
Proof.
  assert (H1 : is_uint64 1) by (unfold is_uint64, uint64_modulus; lia).
  refine (conj sample_state_reachable (conj sample_state_Items (conj H1 _))).
  exact (SetCapacity_keeps_most_recent sample_state _ 1
           sample_state_reachable sample_state_Items H1).
Defined.

(** ** Loading over a present key *)

(** X8: in a state of a cache without wrap-around, [LoadItems] of a stream
    that holds one item, for a key that [Items] lists, replaces the value of
    the key, moves the item to the front of [Items] and accounts for the
    difference of the sizes, when the new value has a non-negative size and
    fits; the other items keep their order and values. (On a key of the
    index [Set] keeps the old value.) *)
Theorem LoadItems_replaces_the_value
    {V} `{!Value V} {Stream} `{!Gob V Stream}
    (c : LRUCache V) (items : list (Item V)) (r : Stream)
    (clock : nat → Time) (key : string) (old new : V) :
  reachable (Stream:=Stream) c → exact c → Items c = Ok items →
  mkItem key old ∈ items → gob_Decode r = inl [mkItem key new] →
  0 ≤ Size new → lru_size c - Size old + Size new ≤ lru_capacity c →
  ∃ c',
    LoadItems r clock c = Ok (None, c') ∧
    Items c' = Ok (mkItem key new
                     :: filter (λ item, item_Key item ≠ key) items) ∧
    lru_size c' = lru_size c - Size old + Size new ∧
    lru_capacity c' = lru_capacity c.
Proof.
  intros Hc%reachable_consistent Hex Hitems Hin Hdec Hnew Hfit.
  rewrite (consistent_Items c Hc) in Hitems. injection Hitems as <-.
  destruct (lookup_key_item key old (entries c)
              (consistent_NoDup_keys c Hc) Hin) as (e & Hlook & Hkey & Hval).
  assert (Hsize : entry_size e = Size old ∧ 0 ≤ Size old ≤ lru_size c).
  { apply lookup_key_Some in Hlook as [(p & Hp & He)%elem_of_entries _].
    destruct (cons_heap c Hc p Hp) as (e' & He' & Hsize).
    assert (e' = e) as -> by congruence. rewrite Hval in Hsize.
    split; [done|]. rewrite <- Hsize. split; [by apply (proj1 Hex p)|].
    rewrite (proj2 Hex). apply (total_of_elem_le _ _ p); try done.
    intros q e0 Hq He0. by apply (proj1 Hex q). }
  destruct Hsize as [Hsize Hold].
  pose proof (cons_capacity c Hc) as [_ Hcap].
  destruct (loadLoop_view [mkItem key new] clock c Hc)
    as (c' & Hrun & Hc' & Hview).
  exists c'. unfold LoadItems. rewrite Hdec, Hrun. simpl.
  simpl in Hview. unfold v_loadItem in Hview. simpl in Hview.
  rewrite Hlook in Hview.
  destruct (v_updateInplace e new (clock O) (view_of c)) as [v1| |] eqn:Hup;
    simpl in Hview; try done. injection Hview as ->.
  unfold v_updateInplace, v_checkCapacity, view_of in Hup.
  rewrite uint64_add_int, Hsize in Hup. simpl in Hup.
  rewrite (uint64_small (lru_size c + (Size new - Size old))) in Hup
    by (unfold is_uint64; lia).
  rewrite bool_decide_eq_false_2 in Hup by lia.
  injection Hup as Hes Hsz Hcap'.
  split_and!; [done| |lia|done].
  rewrite (consistent_Items c' Hc'), <- Hes, fmap_cons.
  rewrite entry_item_without_key. unfold entry_item at 1. simpl.
  by rewrite Hkey.
Qed.

Lemma LoadItems_replaces_the_value_witness :
  reachable (Stream:=SampleStream) sample_state ∧ exact sample_state ∧
  Items sample_state
    = Ok [mkItem "C" (mkBlob "c" 1); mkItem "A" (mkBlob "a" 1)] ∧
  mkItem "A" (mkBlob "a" 1)
    ∈ [mkItem "C" (mkBlob "c" 1); mkItem "A" (mkBlob "a" 1)] ∧
  gob_Decode update_stream = inl [mkItem "A" (mkBlob "a2" 1)] ∧
  0 ≤ Size (mkBlob "a2" 1) ∧
  lru_size sample_state - Size (mkBlob "a" 1) + Size (mkBlob "a2" 1)
    ≤ lru_capacity sample_state ∧
  ∃ c',
    LoadItems update_stream sample_clock sample_state = Ok (None, c') ∧
    Items c' = Ok (mkItem "A" (mkBlob "a2" 1)
                     :: filter (λ item, item_Key item ≠ "A")
                          [mkItem "C" (mkBlob "c" 1);
                           mkItem "A" (mkBlob "a" 1)]) ∧
    lru_size c'
      = lru_size sample_state - Size (mkBlob "a" 1) + Size (mkBlob "a2" 1) ∧
    lru_capacity c' = lru_capacity sample_state.
Proof.
  assert (Hin : mkItem "A" (mkBlob "a" 1)
                  ∈ [mkItem "C" (mkBlob "c" 1); mkItem "A" (mkBlob "a" 1)])
    by (right; left).
  assert (Hdec : gob_Decode update_stream = inl [mkItem "A" (mkBlob "a2" 1)])
    by reflexivity.
  assert (Hnew : 0 ≤ Size (mkBlob "a2" 1)) by (vm_compute; discriminate).
  assert (Hfit : lru_size sample_state - Size (mkBlob "a" 1)
                   + Size (mkBlob "a2" 1) ≤ lru_capacity sample_state)
    by (vm_compute; discriminate).
  refine (conj sample_state_reachable (conj sample_state_exact
           (conj sample_state_Items (conj Hin (conj Hdec (conj Hnew
             (conj Hfit _))))))).
  exact (LoadItems_replaces_the_value sample_state _ update_stream
           sample_clock "A" (mkBlob "a" 1) (mkBlob "a2" 1)
           sample_state_reachable sample_state_exact sample_state_Items
           Hin Hdec Hnew Hfit).
Defined.

(** ** What the operations depend on, and what they leave alone *)

(** X13: in every state of a cache, no public operation but [SetCapacity]
    changes the capacity, and [SetCapacity] makes it the capacity given. *)
Theorem only_SetCapacity_changes_the_capacity
    {V} `{!Value V} {Stream} `{!Gob V Stream}
    (c : LRUCache V) (o : op V Stream) :
  reachable (Stream:=Stream) c → op_typed o →
  ∃ c', run_op o c = Ok c' ∧
        lru_capacity c' = match o with
                          | OpSetCapacity capacity => capacity
                          | _ => lru_capacity c
                          end.
Proof.
  intros Hc%reachable_consistent Ho.
  destruct (run_op_view o c Hc Ho) as (c' & Hrun & Hc' & Hview).
  exists c'. split; [done|].
  assert (Hcheck : ∀ v v' : view V, v_checkCapacity v = Ok v' →
                           v_capacity v' = v_capacity v).
  { intros v v' Hv. by apply v_checkCapacity_loop_prefix in Hv as (_ & _ & ?). }
  assert (Hitem : ∀ item now (v v' : view V),
             v_loadItem item now v = Ok v' → v_capacity v' = v_capacity v).
  { intros item now v v'. unfold v_loadItem, v_updateInplace, v_addNew.
    destruct (lookup_key (item_Key item) (v_entries v));
      intros Hv%Hcheck; exact Hv. }
  assert (Hloop : ∀ items clock (v v' : view V),
             v_loadLoop items clock v = Ok v' → v_capacity v' = v_capacity v).
  { intros items. induction items as [|item items IH]; intros clock v v';
      simpl; [by intros [= <-]|].
    destruct (v_loadItem item (clock O) v) as [v1| |] eqn:H1; simpl; try done.
    intros Hv%IH. rewrite Hv. by eapply Hitem. }
  assert (Hinj : ∀ v v' : view V, Ok v = Ok v' → v = v') by congruence.
  change (lru_capacity c') with (v_capacity (view_of c')).
  change (lru_capacity c) with (v_capacity (view_of c)).
  destruct o as [key now|key value now|key value now|key|
                |capacity|r clock]; simpl in Hview.
  - apply Hinj in Hview. rewrite <- Hview. unfold v_moveToFront.
    by destruct (lookup_key key (v_entries (view_of c))).
  - unfold v_Set, v_moveToFront, v_addNew in Hview.
    destruct (lookup_key key (v_entries (view_of c)));
      [apply Hinj in Hview; by rewrite <- Hview|by apply Hcheck in Hview].
  - unfold v_SetIfAbsent, v_addNew in Hview.
    destruct (lookup_key key (v_entries (view_of c)));
      [apply Hinj in Hview; by rewrite <- Hview|by apply Hcheck in Hview].
  - apply Hinj in Hview. rewrite <- Hview. unfold v_Delete.
    by destruct (lookup_key key (v_entries (view_of c))).
  - apply Hinj in Hview. by rewrite <- Hview.
  - by apply Hcheck in Hview.
  - destruct (gob_Decode r);
      [by apply Hloop in Hview|apply Hinj in Hview; by rewrite <- Hview].
Qed.

Lemma only_SetCapacity_changes_the_capacity_witness :
  reachable (Stream:=SampleStream) sample_state ∧
  op_typed (OpSet (Stream:=SampleStream) "D" (mkBlob "d" 1) 9) ∧
  ∃ c', run_op (OpSet (Stream:=SampleStream) "D" (mkBlob "d" 1) 9)
          sample_state = Ok c' ∧
        lru_capacity c' = lru_capacity sample_state.
Proof.
  refine (conj sample_state_reachable (conj I _)).
  exact (only_SetCapacity_changes_the_capacity sample_state
           (OpSet "D" (mkBlob "d" 1) 9) sample_state_reachable I).
Defined.

(** X12: after any sequence of public operations on a fresh cache, with
    capacities of at most [2^63] and values of non-negative sizes, the
    accounted size is the sum of the cached sizes of the present entries, it
    is within the capacity, and so is the cached size of every entry. *)
Theorem modest_sequences_stay_within_capacity
    {V} `{!Value V} {Stream} `{!Gob V Stream}
    (capacity : Z) (ops : list (op V Stream)) :
  is_uint64 capacity → capacity ≤ 2 ^ 63 →
  Forall op_typed ops → Forall op_modest ops →
  ∃ c, run_ops ops (NewLRUCache capacity) = Ok c ∧
       lru_size c = total c ∧ lru_size c ≤ lru_capacity c ∧
       ∀ p e, present c p e → 0 ≤ entry_size e ≤ lru_capacity c.
Proof.
  intros Hcap Hle Hops Hmo.
  destruct (run_ops_modest ops _ (consistent_NewLRUCache capacity Hcap)
              (modest_NewLRUCache capacity Hcap Hle) Hops Hmo)
    as (c & Hrun & Hc & [Hpos Hsz] & Hin).
  exists c. split_and!; try done.
  intros p e [Hp He]. split; [by apply (Hpos p)|].
  assert (entry_size e ≤ total c); [|lia].
  apply (total_of_elem_le _ _ p); try done.
  intros q e' Hq He'. by apply (Hpos q).
Qed.

Lemma sample_ops_modest : Forall op_modest sample_ops.
Proof.
  repeat constructor; simpl; vm_compute; discriminate.
Qed.

Lemma modest_sequences_stay_within_capacity_witness :
  is_uint64 2 ∧ 2 ≤ 2 ^ 63 ∧
  Forall op_typed sample_ops ∧ Forall op_modest sample_ops ∧
  ∃ c, run_ops sample_ops (NewLRUCache 2) = Ok c ∧
       lru_size c = total c ∧ lru_size c ≤ lru_capacity c ∧
       ∀ p e, present c p e → 0 ≤ entry_size e ≤ lru_capacity c.
Proof.
  assert (H2 : is_uint64 2) by (unfold is_uint64, uint64_modulus; lia).
  assert (Hle : 2 ≤ 2 ^ 63) by (vm_compute; discriminate).
  assert (Hops : Forall op_typed sample_ops) by repeat constructor.
  refine (conj H2 (conj Hle (conj Hops (conj sample_ops_modest _)))).
  exact (modest_sequences_stay_within_capacity 2 sample_ops H2 Hle Hops
           sample_ops_modest).
Defined.






(** ** Access times *)

Section AccessTimes.
Context {V : Type} `{!Value V}.
Implicit Types (e : entry V) (es : list (entry V)) (v : view V).

Lemma recent_first_nil t : recent_first (V:=V) t [].
Proof. split; constructor. Qed.

Lemma recent_first_weaken t t' es :
  recent_first t es → t ≤ t' → recent_first t' es.
Proof.
  intros [Hs Hb] Hle. split; [done|].
  eapply Forall_impl; [exact Hb|]. simpl. intros e He. lia.
Qed.

Lemma recent_first_prefix t es es' :
  es' `prefix_of` es → recent_first t es → recent_first t es'.
Proof.
  intros [k ->] [Hs Hb]. split.
  - by apply StronglySorted_app_1_l in Hs.
  - by apply Forall_app in Hb as [Hb _].
Qed.

Lemma Forall_without (P : entry V → Prop) key es :
  Forall P es → Forall P (without_key key es).
Proof.
  rewrite !Forall_forall. intros Hall e [_ He]%list_elem_of_filter.
  by apply Hall.
Qed.

Lemma recent_first_without t key es :
  recent_first t es → recent_first t (without_key key es).
Proof.
  intros [Hs Hb]. split; [|by apply Forall_without].
  clear Hb. induction Hs as [|e es Hs IH Hall]; [constructor|].
  unfold without_key in *. destruct (decide (entry_key e ≠ key)).
  - rewrite filter_cons_True by done. constructor; [exact IH|].
    by apply (Forall_without _ key).
  - rewrite filter_cons_False by done. exact IH.
Qed.

Lemma recent_first_push t now e es :
  recent_first t es → t ≤ now → entry_timeAccessed e = now →
  recent_first now (e :: es).
Proof.
  intros [Hs Hb] Hle He. split.
  - constructor; [done|]. eapply Forall_impl; [exact Hb|].
    simpl. intros e' He'. lia.
  - constructor; [lia|]. eapply Forall_impl; [exact Hb|].
    simpl. intros e' He'. lia.
Qed.

(** The entry at the back is the one accessed the longest ago. *)
Lemma recent_first_last t es e e' :
  recent_first t es → last es = Some e → e' ∈ es →
  entry_timeAccessed e ≤ entry_timeAccessed e'.
Proof.
  intros [Hs _] [es' ->]%last_Some Hin.
  apply elem_of_app in Hin as [Hin|Hin%list_elem_of_singleton].
  - apply (StronglySorted_app_1_elem_of _ _ _ e' e Hs); [done|by left].
  - subst. lia.
Qed.

Lemma v_checkCapacity_recent t v v' :
  v_checkCapacity v = Ok v' → recent_first t (v_entries v) →
  recent_first t (v_entries v').
Proof.
  intros (Hpre & _)%v_checkCapacity_loop_prefix. by apply recent_first_prefix.
Qed.

Lemma v_moveToFront_recent t key now v :
  recent_first t (v_entries v) → t ≤ now →
  recent_first now (v_entries (v_moveToFront key now v)).
Proof.
  intros Hr Hle. unfold v_moveToFront.
  destruct (lookup_key key (v_entries v)) as [e|]; simpl.
  - apply (recent_first_push t); [by apply recent_first_without|done|done].
  - by apply (recent_first_weaken t).
Qed.

Lemma v_addNew_recent t key value now v v' :
  v_addNew key value now v = Ok v' → recent_first t (v_entries v) → t ≤ now →
  recent_first now (v_entries v').
Proof.
  intros Hadd Hr Hle. apply (v_checkCapacity_recent now) in Hadd; [done|].
  simpl. by apply (recent_first_push t).
Qed.

Lemma v_updateInplace_recent t e value now v v' :
  v_updateInplace e value now v = Ok v' → recent_first t (v_entries v) →
  t ≤ now → recent_first now (v_entries v').
Proof.
  intros Hup Hr Hle. apply (v_checkCapacity_recent now) in Hup; [done|].
  simpl. apply (recent_first_push t); [by apply recent_first_without|done..].
Qed.

Lemma v_loadLoop_recent items clock t t' v v' :
  v_loadLoop items clock v = Ok v' → recent_first t (v_entries v) →
  t ≤ clock O → (∀ i, clock i ≤ clock (S i)) → (∀ i, clock i ≤ t') →
  recent_first t' (v_entries v').
Proof.
  revert clock t v. induction items as [|item items IH];
    intros clock t v; simpl.
  - intros [= <-] Hr Hle _ Hb. apply (recent_first_weaken t); [done|].
    specialize (Hb O). lia.
  - destruct (v_loadItem item (clock O) v) as [v1| |] eqn:H1; simpl; try done.
    intros Hrun Hr Hle Hmono Hb.
    apply (IH (λ i, clock (S i)) (clock O) v1 Hrun).
    + unfold v_loadItem in H1.
      destruct (lookup_key (item_Key item) (v_entries v)).
      * by apply (v_updateInplace_recent t) in H1.
      * by apply (v_addNew_recent t) in H1.
    + apply Hmono.
    + intros i. apply Hmono.
    + intros i. apply Hb.
Qed.

End AccessTimes.

Section AccessTimesOfSequences.
Context {V : Type} `{!Value V} {Stream : Type} `{!Gob V Stream}.

Lemma v_run_ops_recent (ops : list (op V Stream)) t (v v' : view V) :
  v_run_ops ops v = Ok v' → clocked t ops → recent_first t (v_entries v) →
  ∃ t', recent_first t' (v_entries v').
Proof.
  revert t v. induction ops as [|o ops IH]; intros t v; simpl.
  - intros [= <-] _ Hr. by exists t.
  - destruct (v_run_op o v) as [v1| |] eqn:H1; simpl; try done.
    intros Hrun Hclock Hr.
    destruct o as [key now|key value now|key value now|key|
                  |capacity|r clock]; simpl in H1.
    + destruct Hclock as [Hle Hclock]. injection H1 as <-.
      apply (IH now _ Hrun Hclock). by apply (v_moveToFront_recent t).
    + destruct Hclock as [Hle Hclock]. apply (IH now _ Hrun Hclock).
      unfold v_Set in H1. destruct (lookup_key key (v_entries v)).
      * injection H1 as <-. by apply (v_moveToFront_recent t).
      * by apply (v_addNew_recent t) in H1.
    + destruct Hclock as [Hle Hclock]. apply (IH now _ Hrun Hclock).
      unfold v_SetIfAbsent in H1. destruct (lookup_key key (v_entries v)).
      * injection H1 as <-. by apply (recent_first_weaken t).
      * by apply (v_addNew_recent t) in H1.
    + injection H1 as <-. apply (IH t _ Hrun Hclock).
      unfold v_Delete. destruct (lookup_key key (v_entries v)); simpl;
        [by apply recent_first_without|done].
    + injection H1 as <-. apply (IH t _ Hrun Hclock). apply recent_first_nil.
    + apply (IH t _ Hrun Hclock).
      by apply (v_checkCapacity_recent t) in H1.
    + destruct Hclock as (Hle & Hmono & t' & Hb & Hclock).
      apply (IH t' _ Hrun Hclock).
      destruct (gob_Decode r) as [items|err].
      * by apply (v_loadLoop_recent items clock t t' v v1).
      * injection H1 as <-. apply (recent_first_weaken t); [done|].
        specialize (Hb O). lia.
Qed.

End AccessTimesOfSequences.

Lemma sample_ops_clocked : clocked (Stream:=SampleStream) 0 sample_ops.
Proof. simpl. lia. Qed.

(** X11: when the clock does not go back along a sequence of public
    operations on a fresh cache, the entries are in the order of their
    access times, the latest first, and the time of the oldest access that
    [Stats] reports is at most the access time of every entry. *)
Theorem Stats_reports_the_oldest_access
    {V} `{!Value V} {Stream} `{!Gob V Stream}
    (capacity : Z) (t0 : Time) (ops : list (op V Stream)) :
  is_uint64 capacity → Forall op_typed ops → clocked t0 ops →
  ∃ c length size cap oldest,
    run_ops ops (NewLRUCache capacity) = Ok c ∧
    Stats c = Ok (length, size, cap, oldest) ∧
    StronglySorted
      (λ e1 e2, entry_timeAccessed e2 ≤ entry_timeAccessed e1) (entries c) ∧
    ∀ e, e ∈ entries c → oldest ≤ entry_timeAccessed e.
Proof.
  intros Hcap Hops Hclock.
  pose proof (consistent_NewLRUCache (V:=V) capacity Hcap) as Hnew.
  destruct (run_ops_view ops _ Hnew Hops) as (c & Hrun & Hc & Hview).
  destruct (v_run_ops_recent ops t0 _ _ Hview Hclock (recent_first_nil t0))
    as [t Hr].
  simpl in Hr. eexists c, _, _, _, _.
  split_and!; [done|by apply Stats_view|apply Hr|].
  intros e He. destruct (last (entries c)) as [e0|] eqn:Hlast; simpl.
  - by apply (recent_first_last t (entries c)).
  - apply last_None in Hlast. rewrite Hlast in He.
    by apply elem_of_nil in He.
Qed.

Lemma Stats_reports_the_oldest_access_witness :
  is_uint64 2 ∧ Forall op_typed sample_ops ∧
  clocked (Stream:=SampleStream) 0 sample_ops ∧
  ∃ c length size cap oldest,
    run_ops sample_ops (NewLRUCache 2) = Ok c ∧
    Stats c = Ok (length, size, cap, oldest) ∧
    StronglySorted
      (λ e1 e2, entry_timeAccessed e2 ≤ entry_timeAccessed e1) (entries c) ∧
    ∀ e, e ∈ entries c → oldest ≤ entry_timeAccessed e.
Proof.
  assert (H2 : is_uint64 2) by (unfold is_uint64, uint64_modulus; lia).
  assert (Hops : Forall op_typed sample_ops) by repeat constructor.
  refine (conj H2 (conj Hops (conj sample_ops_clocked _))).
  exact (Stats_reports_the_oldest_access 2 0 sample_ops H2 Hops
           sample_ops_clocked).
Defined.

(** ** The first value stays *)

(** X15: in a state of a cache without wrap-around and within a capacity of
    at most [2^63], once [Set] has stored a value under a new key, neither
    [Set] nor [SetIfAbsent] of another value under that key replaces it:
    [Get] still returns the first value, and the accounted size is that
    after the first [Set], whatever the size of the second value. *)
Theorem first_value_stays
    {V} `{!Value V} {Stream} `{!Gob V Stream}
    (c : LRUCache V) (key : string) (v1 v2 : V) (t1 t2 t3 : Time) :
  reachable (Stream:=Stream) c → modest c →
  lru_table c !! key = None → 0 ≤ Size v1 ≤ lru_capacity c →
  ∃ c1 c2 c3,
    Set_ key v1 t1 c = Ok c1 ∧
    SetIfAbsent key v2 t2 c1 = Ok c1 ∧
    Set_ key v2 t2 c1 = Ok c2 ∧
    Get key t3 c2 = Ok (Some v1, c3) ∧
    lru_size c2 = lru_size c1.
Proof.
  intros Hc%reachable_consistent Hm Hk [Hv Hfit].
  destruct (addNew_kept_or_dropped c key v1 t1 Hc Hm Hk Hv)
    as (c1 & Hadd & Hc1 & _ & _ & _ & [[_ [rest Hes]]|[Hbig _]]); [|lia].
  assert (Hlook : lookup_key key (entries c1)
                  = Some (mkEntry key v1 (Size v1) t1)).
  { rewrite Hes. simpl. by rewrite decide_True. }
  assert (Htab : is_Some (lru_table c1 !! key)).
  { rewrite (lookup_key_entries c1 key Hc1) in Hlook.
    destruct (lru_table c1 !! key); [by eexists|done]. }
  destruct Htab as [p Hp].
  destruct (Set_view c1 key v2 t2 Hc1) as (c2 & Hset & Hc2 & Hview).
  unfold v_Set, v_moveToFront in Hview. simpl in Hview.
  rewrite Hlook in Hview. simpl in Hview.
  assert (Hview' : view_of c2
            = mkView (stamp (mkEntry key v1 (Size v1) t1) t2
                        :: without_key key (entries c1))
                (lru_size c1) (lru_capacity c1)) by congruence.
  injection Hview' as Hes2 Hsz2 _.
  destruct (Get_view c2 key t3 Hc2) as (c3 & Hget & _).
  exists c1, c2, c3. split_and!; try done.
  - unfold Set_. by rewrite Hk.
  - unfold SetIfAbsent. by rewrite Hp.
  - rewrite Hget, Hes2. simpl. by rewrite decide_True.
Qed.

Lemma first_value_stays_witness :
  reachable (Stream:=SampleStream) sample_state ∧ modest sample_state ∧
  lru_table sample_state !! "D" = None ∧
  0 ≤ Size (mkBlob "d" 2) ≤ lru_capacity sample_state ∧
  ∃ c1 c2 c3,
    Set_ "D" (mkBlob "d" 2) 7 sample_state = Ok c1 ∧
    SetIfAbsent "D" (mkBlob "other" 1) 8 c1 = Ok c1 ∧
    Set_ "D" (mkBlob "other" 1) 8 c1 = Ok c2 ∧
    Get "D" 9 c2 = Ok (Some (mkBlob "d" 2), c3) ∧
    lru_size c2 = lru_size c1.
Proof.
  assert (Hk : lru_table sample_state !! "D" = None) by reflexivity.
  assert (Hv : 0 ≤ Size (mkBlob "d" 2) ≤ lru_capacity sample_state)
    by (split; vm_compute; discriminate).
  refine (conj sample_state_reachable
            (conj sample_state_modest (conj Hk (conj Hv _)))).
  exact (first_value_stays sample_state "D" (mkBlob "d" 2) (mkBlob "other" 1)
           7 8 9 sample_state_reachable sample_state_modest Hk Hv).
Defined.

(** ** Loading a snapshot into the cache it was taken from *)

Section Reload.
Context {V : Type} `{!Value V}.
Implicit Types (e : entry V) (es : list (entry V)) (v : view V).

Lemma without_key_middle pre e post :
  NoDup (entry_key <$> pre ++ e :: post) →
  without_key (entry_key e) (pre ++ e :: post) = pre ++ post.
Proof.
  rewrite fmap_app, fmap_cons. intros Hnd.
  apply NoDup_app in Hnd as (_ & Hdisj & Hnd').
  apply NoDup_cons in Hnd' as [Hpost _].
  unfold without_key. rewrite filter_app, filter_cons_False by tauto.
  f_equal.
  - apply without_key_not_in. intros Hin. apply (Hdisj _ Hin). by left.
  - by apply without_key_not_in.
Qed.

Lemma lookup_key_middle pre e post :
  NoDup (entry_key <$> pre ++ e :: post) →
  lookup_key (entry_key e) (pre ++ e :: post) = Some e.
Proof.
  intros Hnd. apply lookup_key_NoDup; [done|].
  apply elem_of_app. right. by left.
Qed.

Lemma v_loadLoop_reload post pre clock v :
  v_entries v = pre ++ post →
  NoDup (entry_key <$> pre ++ post) →
  Forall (λ e, entry_size e = Size (entry_value e)) post →
  is_uint64 (v_size v) → v_size v ≤ v_capacity v →
  ∃ v', v_loadLoop (entry_item <$> post) clock v = Ok v' ∧
        entry_item <$> v_entries v'
        = rev (entry_item <$> post) ++ (entry_item <$> pre) ∧
        v_size v' = v_size v ∧ v_capacity v' = v_capacity v.
Proof.
  revert pre clock v. induction post as [|e post IH];
    intros pre clock v Hes Hnd Hsizes Hrange Hfit.
  { exists v. rewrite app_nil_r in Hes. simpl. by rewrite Hes. }
  apply Forall_cons in Hsizes as [Hsize Hsizes].
  rewrite fmap_cons. simpl. unfold v_loadItem. simpl.
  rewrite Hes, (lookup_key_middle pre e post Hnd).
  unfold v_updateInplace, v_checkCapacity. simpl.
  rewrite Hes, (without_key_middle pre e post Hnd).
  rewrite uint64_add_int, Hsize, Z.sub_diag, Z.add_0_r.
  rewrite (uint64_small (v_size v)) by done.
  rewrite bool_decide_eq_false_2 by lia. simpl.
  set (e' := mkEntry (entry_key e) (entry_value e) (Size (entry_value e))
               (clock O)).
  destruct (IH (e' :: pre) (λ i, clock (S i))
              (mkView (e' :: pre ++ post) (v_size v) (v_capacity v)))
    as (v' & Hrun & Hitems & Hsz & Hcap); try done.
  - simpl. rewrite !fmap_app, fmap_cons in Hnd.
    rewrite fmap_app.
    apply NoDup_app in Hnd as (Hpre & Hdisj & Hpost').
    apply NoDup_cons in Hpost' as [Hnotin Hpost].
    apply NoDup_cons. split.
    + intros [Hin|Hin]%elem_of_app; [|done].
      apply (Hdisj _ Hin). by left.
    + apply NoDup_app. split_and!; try done.
      intros k Hk Hk'. apply (Hdisj k Hk). by right.
  - exists v'. split_and!; try done.
    rewrite Hitems. simpl. rewrite <- app_assoc. done.
Qed.

End Reload.

(** X16: in every state of a cache whose accounted size is within the
    capacity, with a stream format that decodes what it encodes, loading
    what [SaveItems] has written into the cache itself succeeds and keeps
    every key with its value, the accounted size and the capacity: it only
    reverses the order of [Items]. *)
Theorem reload_of_own_snapshot
    {V} `{!Value V} {Stream} `{!Gob V Stream}
    (c : LRUCache V) (stream : Stream) (clock : nat → Time) :
  (∀ items s, gob_Encode (Stream:=Stream) items = inl s →
              gob_Decode s = inl items) →
  reachable (Stream:=Stream) c → lru_size c ≤ lru_capacity c →
  SaveItems c = Ok (inl stream) →
  ∃ items c',
    Items c = Ok items ∧
    LoadItems stream clock c = Ok (None, c') ∧
    Items c' = Ok (rev items) ∧
    lru_size c' = lru_size c ∧ lru_capacity c' = lru_capacity c.
Proof.
  intros Hgob Hc%reachable_consistent Hle Hsave.
  pose proof (consistent_Items c Hc) as Hitems.
  unfold SaveItems in Hsave. rewrite Hitems in Hsave. simpl in Hsave.
  injection Hsave as Henc. apply Hgob in Henc.
  destruct (loadLoop_view (entry_item <$> entries c) clock c Hc)
    as (c' & Hrun & Hc' & Hview).
  destruct (v_loadLoop_reload (entries c) [] clock (view_of c))
    as (v' & Hrun' & Hitems' & Hsz & Hcap); try done.
  - by apply consistent_NoDup_keys.
  - apply Forall_forall. intros e (p & Hp & He)%elem_of_entries.
    destruct (cons_heap c Hc p Hp) as (e' & He' & Hsize). congruence.
  - by apply consistent_size_range.
  - assert (v' = view_of c') as -> by congruence.
    exists (entry_item <$> entries c), c'. split_and!; try done.
    + unfold LoadItems. by rewrite Henc, Hrun.
    + rewrite (consistent_Items c' Hc'). simpl in Hitems'.
      by rewrite Hitems', app_nil_r.
Qed.

Lemma reload_of_own_snapshot_witness :
  (∀ items s, gob_Encode (Stream:=SampleStream) items = inl s →
              gob_Decode s = inl items) ∧
  reachable (Stream:=SampleStream) sample_state ∧
  lru_size sample_state ≤ lru_capacity sample_state ∧
  SaveItems sample_state
    = Ok (inl [Some (mkItem "C" (mkBlob "c" 1));
               Some (mkItem "A" (mkBlob "a" 1))]) ∧
  ∃ items c',
    Items sample_state = Ok items ∧
    LoadItems [Some (mkItem "C" (mkBlob "c" 1));
               Some (mkItem "A" (mkBlob "a" 1))] sample_clock sample_state
      = Ok (None, c') ∧
    Items c' = Ok (rev items) ∧
    lru_size c' = lru_size sample_state ∧
    lru_capacity c' = lru_capacity sample_state.
Proof.
  assert (Hle : lru_size sample_state ≤ lru_capacity sample_state)
    by (vm_compute; discriminate).
  assert (Hsave : SaveItems sample_state
                  = Ok (inl [Some (mkItem "C" (mkBlob "c" 1));
                             Some (mkItem "A" (mkBlob "a" 1))]))
    by reflexivity.
  refine (conj sample_Gob_round_trip (conj sample_state_reachable
           (conj Hle (conj Hsave _)))).
  exact (reload_of_own_snapshot sample_state _ sample_clock
           sample_Gob_round_trip sample_state_reachable Hle Hsave).
Defined.
